(** * Secure File Integrity Monitor: stability gate, hasher, retry policy,
      manifest and event router

    A shallow embedding of [main.py].  Python's module-level functions and
    the methods of [IntegrityEventHandler] become computations in a small
    state-and-exception monad over an explicit world (the handler's two
    dictionaries, the manifest sink and a log of component invocations).
    Everything the operating system decides (which files exist, their
    content, injected I/O failures, the wall clock) is read from an
    environment indexed by the number of system calls made so far, so a
    theorem quantified over environments covers every interleaving of the
    monitor with other processes that touch the watched files.

    Modelling choices:
    - [time.time()] and the sleep lengths are rationals ([Q]);
    - strings are ASCII strings, [str.lower] lowers [A]-[Z], and paths are
      POSIX paths;
    - an open file is a position in the file the path holds: every
      [f.read] reads the content the file has at the time of the read,
      so a file written to while it is hashed yields a mixture;
    - [f.read] and [time.sleep] refuse the arguments CPython refuses: read
      sizes below [-1], sizes that do not fit in a machine word or in
      memory, negative sleeps and sleeps whose nanoseconds do not fit in 64
      bits;
    - calls to [logger] are left out: they change nothing the program looks
      at afterwards;
    - the field [calls] of the world is ghost state: each of the stability
      gate, the hasher, [_process_file_safe] and the manifest appends an
      entry when it is entered, so that "was not invoked" and "was invoked
      once" can be stated. *)

From Stdlib Require Import ZArith QArith Lqa Lia Bool List Ascii String.
From Stdlib Require Import Strings.Byte.
From stdpp Require Import base option gmap strings list.
Import ListNotations.

Local Open Scope Z_scope.

(** ** SHA-256 ([hashlib.new("sha256")])

    [hashlib] is not part of the repository; its hash object is modelled by
    FIPS 180-4 itself: 32-bit words are [Z] with the wrap-around written
    out, and the object buffers input until a 64-byte block is complete. *)

Module SHA256.

Definition wrap32 (x : Z) : Z := x mod 2 ^ 32.
Definition add32 (x y : Z) : Z := wrap32 (x + y).
Definition rotr (n x : Z) : Z :=
  Z.lor (Z.shiftr x n) (wrap32 (Z.shiftl x (32 - n))).
Definition shr (n x : Z) : Z := Z.shiftr x n.

Definition Ch (x y z : Z) : Z :=
  Z.lxor (Z.land x y) (Z.land (wrap32 (Z.lnot x)) z).
Definition Maj (x y z : Z) : Z :=
  Z.lxor (Z.lxor (Z.land x y) (Z.land x z)) (Z.land y z).
Definition Sigma0 (x : Z) : Z := Z.lxor (Z.lxor (rotr 2 x) (rotr 13 x)) (rotr 22 x).
Definition Sigma1 (x : Z) : Z := Z.lxor (Z.lxor (rotr 6 x) (rotr 11 x)) (rotr 25 x).
Definition sigma0 (x : Z) : Z := Z.lxor (Z.lxor (rotr 7 x) (rotr 18 x)) (shr 3 x).
Definition sigma1 (x : Z) : Z := Z.lxor (Z.lxor (rotr 17 x) (rotr 19 x)) (shr 10 x).

(** The constants are defined as the standard defines them, from the
    first primes: the leading 32 bits of the fractional parts of their cube
    roots (round constants) and square roots (initial chaining value). *)
Definition is_prime (n : Z) : bool :=
  forallb (fun d => negb (n mod d =? 0)) (map Z.of_nat (seq 2 (Z.to_nat n - 2))).

Definition primes : list Z :=
  Eval vm_compute in List.filter is_prime (map Z.of_nat (seq 2 310)).

(** Integer cube root, one bit at a time from the top. *)
Fixpoint cube_root_bits (bits : nat) (n r : Z) : Z :=
  match bits with
  | O => r
  | S b =>
      let c := r + 2 ^ Z.of_nat b in
      cube_root_bits b n (if c * c * c <=? n then c else r)
  end.

Definition cube_root (n : Z) : Z := cube_root_bits 40 n 0.

Definition K : list Z :=
  Eval vm_compute in map (fun p => wrap32 (cube_root (p * 2 ^ 96))) primes.

(** The eight working registers. *)
Record regs := Regs {
  ra : Z; rb : Z; rc : Z; rd : Z; re : Z; rf : Z; rg : Z; rh : Z }.

Definition H0 : regs :=
  Eval vm_compute in
    match map (fun p => wrap32 (Z.sqrt (p * 2 ^ 64))) (firstn 8 primes) with
    | [a; b; c; d; e; f; g; h] => Regs a b c d e f g h
    | _ => Regs 0 0 0 0 0 0 0 0
    end.

Definition byteZ (b : byte) : Z := Z.of_N (Byte.to_N b).

(** Big-endian 32-bit words of a block. *)
Fixpoint words_of_bytes (l : list byte) : list Z :=
  match l with
  | b0 :: b1 :: b2 :: b3 :: rest =>
      (byteZ b0 * 2 ^ 24 + byteZ b1 * 2 ^ 16 + byteZ b2 * 2 ^ 8 + byteZ b3)
        :: words_of_bytes rest
  | _ => []
  end.

(** Message schedule; [w] holds the words computed so far, newest first. *)
Fixpoint expand (n : nat) (w : list Z) : list Z :=
  match n with
  | O => w
  | S n' =>
      let wt := add32 (add32 (sigma1 (nth 1 w 0)) (nth 6 w 0))
                      (add32 (sigma0 (nth 14 w 0)) (nth 15 w 0)) in
      expand n' (wt :: w)
  end.

Definition schedule (block : list byte) : list Z :=
  rev (expand 48 (rev (words_of_bytes block))).

Definition round (s : regs) (kw : Z * Z) : regs :=
  let t1 := add32 (add32 (add32 (rh s) (Sigma1 (re s)))
                         (add32 (Ch (re s) (rf s) (rg s)) (fst kw))) (snd kw) in
  let t2 := add32 (Sigma0 (ra s)) (Maj (ra s) (rb s) (rc s)) in
  Regs (add32 t1 t2) (ra s) (rb s) (rc s) (add32 (rd s) t1) (re s) (rf s) (rg s).

Definition compress (h : regs) (block : list byte) : regs :=
  let s := fold_left round (combine K (schedule block)) h in
  Regs (add32 (ra h) (ra s)) (add32 (rb h) (rb s)) (add32 (rc h) (rc s))
       (add32 (rd h) (rd s)) (add32 (re h) (re s)) (add32 (rf h) (rf s))
       (add32 (rg h) (rg s)) (add32 (rh h) (rh s)).

(** The hash object: chaining value, bytes of the incomplete block, and the
    number of bytes absorbed. *)
Record state := State {
  chain : regs;
  pending : list byte;
  absorbed : Z }.

Definition init : state := State H0 [] 0.

Definition feed (st : state) (b : byte) : state :=
  let buf := pending st ++ [b] in
  if (Z.of_nat (length buf) =? 64)
  then State (compress (chain st) buf) [] (absorbed st + 1)
  else State (chain st) buf (absorbed st + 1).

(** [hash_func.update(chunk)] *)
Definition update (st : state) (data : list byte) : state :=
  fold_left feed data st.

Definition byte_of_Z (z : Z) : byte :=
  match Byte.of_N (Z.to_N (z mod 256)) with
  | Some b => b
  | None => x00
  end.

(** The 64-bit big-endian bit length closing the padding. *)
Definition length_bytes (bits : Z) : list byte :=
  map (fun i => byte_of_Z (Z.shiftr bits (8 * i))) [7; 6; 5; 4; 3; 2; 1; 0].

Definition padding (st : state) : list byte :=
  let p := Z.of_nat (length (pending st)) in
  let zeros := if p <? 56 then 55 - p else 119 - p in
  x80 :: repeat x00 (Z.to_nat zeros) ++ length_bytes (8 * absorbed st).

Definition finish (st : state) : regs := chain (update st (padding st)).

Definition hex_digit (n : Z) : ascii :=
  nth (Z.to_nat n) (list_ascii_of_string "0123456789abcdef") "0"%char.

Definition hex_word (w : Z) : list ascii :=
  map (fun i => hex_digit (Z.land (Z.shiftr w (4 * i)) 15)) [7; 6; 5; 4; 3; 2; 1; 0].

(** [hash_func.hexdigest()]: 64 lowercase hexadecimal characters. *)
Definition hexdigest (st : state) : string :=
  let r := finish st in
  string_of_list_ascii
    (hex_word (ra r) ++ hex_word (rb r) ++ hex_word (rc r) ++ hex_word (rd r) ++
     hex_word (re r) ++ hex_word (rf r) ++ hex_word (rg r) ++ hex_word (rh r)).

End SHA256.

(** [hashlib.sha256(S).hexdigest()]: the reference digest of a byte string,
    computed in one piece. *)
Definition sha256_hex (data : list byte) : string :=
  SHA256.hexdigest (SHA256.update SHA256.init data).

(** ** The world outside the interpreter *)

(** The exception classes the code distinguishes.  [PermissionError] and
    [FileNotFoundError] are subclasses of [OSError] ([IOError] is an alias
    of it); all of them are subclasses of [Exception]. *)
Inductive exn :=
  | PermissionError
  | FileNotFoundError
  | OSError
  | ValueError
  | OverflowError
  | MemoryError
  | RuntimeError.

Definition is_OSError (e : exn) : bool :=
  match e with
  | PermissionError | FileNotFoundError | OSError => true
  | ValueError | OverflowError | MemoryError | RuntimeError => false
  end.

Inductive node :=
  | Dir (size : Z)
  | File (content : list byte) (readable : bool).

Definition node_size (nd : node) : Z :=
  match nd with
  | Dir size => size
  | File content _ => Z.of_nat (length content)
  end.

(** What the operating system answers to the system call made at a given
    tick: the file tree at that moment, an injected failure, the clock; and
    two sizes of the machine: the largest buffer the interpreter can
    allocate, and the size of the disk, which no file outgrows. *)
Record env := Env {
  fs_at : nat -> gmap string node;
  fault_at : nat -> option exn;
  time_at : nat -> Q;
  stamp_at : nat -> string;
  alloc_limit : Z;
  disk_size : nat }.

(** Module-level configuration, read from the process environment when
    [main.py] is imported. *)
Record config := Config {
  FILE_STABILITY_CHECKS : Z;
  FILE_STABILITY_INTERVAL : Q;
  HASH_CHUNK_SIZE : Z;
  MAX_HASH_RETRIES : Z }.

Definition default_config : config :=
  Config 3 (1 # 2) 65536 3.

(** Invocations of the four components, in program order. *)
Inductive call :=
  | CallStability (filepath : string)
  | CallHasher (filepath : string)
  | CallProcess (filepath event_type : string)
  | CallManifest (filepath file_hash event_type : string).

(** The two dictionaries of an [IntegrityEventHandler] instance. *)
Record handler := Handler {
  _processing_lock : gmap string bool;
  _last_modified : gmap string Q }.

Record world := World {
  tick : nat;
  self : handler;
  manifest : list string;
  calls : list call }.

Definition new_handler : handler := Handler ∅ ∅.
Definition new_world : world := World 0 new_handler [] [].

(** ** A state-and-exception monad *)

Inductive result (A : Type) :=
  | Val (a : A)
  | Raise (e : exn).
Arguments Val {A} a.
Arguments Raise {A} e.

Definition M (A : Type) : Type := world -> result A * world.

Definition ret {A} (a : A) : M A := fun w => (Val a, w).
Definition raise {A} (e : exn) : M A := fun w => (Raise e, w).
Definition bind {A B} (m : M A) (k : A -> M B) : M B :=
  fun w => match m w with
           | (Val a, w') => k a w'
           | (Raise e, w') => (Raise e, w')
           end.

(** [try: m  except ...: h e] *)
Definition catch {A} (m : M A) (h : exn -> M A) : M A :=
  fun w => match m w with
           | (Val a, w') => (Val a, w')
           | (Raise e, w') => h e w'
           end.

(** [try: m  finally: f] *)
Definition finally {A} (m : M A) (f : M unit) : M A :=
  fun w => match m w with
           | (r, w') =>
               match f w' with
               | (Val _, w'') => (r, w'')
               | (Raise e, w'') => (Raise e, w'')
               end
           end.

Declare Scope monad_scope.
Delimit Scope monad_scope with monad.
Notation "x <- m ;; k" := (bind m (fun x => k))
  (at level 100, m at next level, right associativity) : monad_scope.
Notation "m ;;; k" := (bind m (fun _ => k))
  (at level 100, right associativity) : monad_scope.
Local Open Scope monad_scope.

Definition get_self : M handler := fun w => (Val (self w), w).
Definition put_self (h : handler) : M unit :=
  fun w => (Val tt, World (tick w) h (manifest w) (calls w)).
Definition record_call (c : call) : M unit :=
  fun w => (Val tt, World (tick w) (self w) (manifest w) (calls w ++ [c])).
(** The world after one system call that changes nothing else. *)
Definition advance (w : world) : world :=
  World (S (tick w)) (self w) (manifest w) (calls w).
Definition push_manifest (entry : string) : M unit :=
  fun w => (Val tt, World (tick w) (self w) (manifest w ++ [entry]) (calls w)).
Definition next_tick : M nat :=
  fun w => (Val (tick w), advance w).

#[global] Instance Qlt_decision (x y : Q) : Decision (x < y)%Q.
Proof.
  destruct (Qlt_le_dec x y) as [H | H]; [left; exact H | right].
  apply Qle_not_lt; exact H.
Defined.

(** ** System calls *)

Section Program.

Variable E : env.
Variable cfg : config.

(** What [os.path.exists] sees at tick [t]: false when the entry is missing
    or cannot be stat'ed. *)
Definition present_at (t : nat) (filepath : string) : bool :=
  match fault_at E t with
  | Some _ => false
  | None => bool_decide (is_Some (fs_at E t !! filepath))
  end.

(** [os.path.exists]; never raises. *)
Definition os_path_exists (filepath : string) : M bool :=
  t <- next_tick ;; ret (present_at t filepath).

(** [os.path.getsize] *)
Definition os_path_getsize (filepath : string) : M Z :=
  t <- next_tick ;;
  match fault_at E t with
  | Some e => raise e
  | None =>
      match fs_at E t !! filepath with
      | None => raise FileNotFoundError
      | Some nd => ret (node_size nd)
      end
  end.

(** [open(filepath, 'rb')].  The handle is the path, a position (zero at
    first) and the content last seen, which is what is returned here: the
    content the file has when it is opened. *)
Definition open_rb (filepath : string) : M (list byte) :=
  t <- next_tick ;;
  match fault_at E t with
  | Some e => raise e
  | None =>
      match fs_at E t !! filepath with
      | None => raise FileNotFoundError
      | Some (Dir _) => raise OSError
      | Some (File _ false) => raise PermissionError
      | Some (File content true) => ret content
      end
  end.

(** [f.read(n)] on a handle that stands at byte [pos] of the file and has
    last seen the content [seen]: the bytes read and the content seen now.
    The file is read as it is at the time of the call: the content the path
    holds then, or the content last seen once the path holds no file any
    more (an unlinked file keeps its bytes for those who have it open); the
    open file is taken to be the file the path holds.
    A size below [-1] is a [ValueError], one that does not fit in a machine
    word an [OverflowError], a buffer beyond what can be allocated a
    [MemoryError]; [n = -1] reads to the end and [n = 0] reads nothing. *)
Definition file_read (filepath : string) (pos : nat) (seen : list byte) (n : Z)
    : M (list byte * list byte) :=
  if n <? -1 then raise ValueError
  else if 2 ^ 63 <=? n then raise OverflowError
  else
    t <- next_tick ;;
    match fault_at E t with
    | Some e => raise e
    | None =>
        let live := match fs_at E t !! filepath with
                    | Some (File content _) => content
                    | _ => seen
                    end in
        let unread := skipn pos live in
        if n =? -1 then
          if alloc_limit E <? Z.of_nat (length unread) then raise MemoryError
          else ret (unread, live)
        else if alloc_limit E <? n then raise MemoryError
        else ret (firstn (Z.to_nat n) unread, live)
    end.

(** The longest sleep: its nanoseconds must fit in 64 bits. *)
Definition sleep_limit : Q := 9223372036854775808 # 1000000000.

(** [time.sleep]: a negative length is a [ValueError], a length from
    [sleep_limit] on an [OverflowError]. *)
Definition time_sleep (seconds : Q) : M unit :=
  if decide (seconds < 0)%Q then raise ValueError
  else if decide (seconds < sleep_limit)%Q then ret tt
  else raise OverflowError.

(** [time.time()] *)
Definition time_time : M Q :=
  t <- next_tick ;; ret (time_at E t).

(** [datetime.now(tz=None).astimezone().isoformat()] *)
Definition now_isoformat : M string :=
  t <- next_tick ;; ret (stamp_at E t).

(** [manifest_dir.mkdir(parents=True, exist_ok=True)] *)
Definition mkdir_parents : M unit :=
  t <- next_tick ;;
  match fault_at E t with
  | Some e => raise e
  | None => ret tt
  end.

(** [with open(HASH_MANIFEST, 'a', encoding='utf-8') as f: f.write(entry)] *)
Definition append_manifest (entry : string) : M unit :=
  t <- next_tick ;;
  match fault_at E t with
  | Some e => raise e
  | None => push_manifest entry
  end.

(** [hashlib.new(algorithm)]; SHA-256 is the one algorithm modelled, any
    other name is reported like an unsupported one. *)
Definition hashlib_new (algorithm : string) : M SHA256.state :=
  if String.eqb algorithm "sha256" then ret SHA256.init else raise ValueError.


(** ** Cryptographic integrity functions *)

(** The [for _ in range(checks * 3)] loop of [wait_for_file_stability];
    [n] is the number of iterations left. *)
Fixpoint stability_loop (n : nat) (filepath : string) (checks : Z) (interval : Q)
    (previous_size stable_count : Z) : M bool :=
  match n with
  | O => ret false
  | S n' =>
      present <- os_path_exists filepath ;;
      if negb present then ret false
      else
        size <- catch (s <- os_path_getsize filepath ;; ret (Some s))
                      (fun e => if is_OSError e then ret None else raise e) ;;
        match size with
        | None =>
            time_sleep interval ;;;
            stability_loop n' filepath checks interval previous_size stable_count
        | Some current_size =>
            if (current_size =? previous_size) && (0 <? current_size)
            then
              let stable_count := stable_count + 1 in
              if checks <=? stable_count then ret true
              else
                time_sleep interval ;;;
                stability_loop n' filepath checks interval current_size stable_count
            else
              time_sleep interval ;;;
              stability_loop n' filepath checks interval current_size 0
        end
  end.

Definition wait_for_file_stability (filepath : string) (checks : Z) (interval : Q)
    : M bool :=
  record_call (CallStability filepath) ;;;
  catch (stability_loop (Z.to_nat (checks * 3)) filepath checks interval (-1) 0)
        (fun _ => ret false).

(** The [while True] loop of [calculate_file_hash]; the handle stands at
    byte [pos].  Every iteration but the last reads at least one byte, so a
    file that never outgrows the disk is read in at most [S (disk_size E)]
    iterations; [fuel] only makes the recursion structural. *)
Fixpoint read_loop (fuel : nat) (chunk_size : Z) (filepath : string) (pos : nat)
    (seen : list byte) (hash_func : SHA256.state) : M SHA256.state :=
  match fuel with
  | O => raise RuntimeError
  | S fuel' =>
      r <- file_read filepath pos seen chunk_size ;;
      match fst r with
      | [] => ret hash_func
      | _ :: _ =>
          read_loop fuel' chunk_size filepath (pos + length (fst r)) (snd r)
                    (SHA256.update hash_func (fst r))
      end
  end.

Definition calculate_file_hash (filepath algorithm : string) (chunk_size : Z)
    : M (option string) :=
  record_call (CallHasher filepath) ;;;
  catch
    (present <- os_path_exists filepath ;;
     if negb present then ret None
     else
       hash_func <- hashlib_new algorithm ;;
       f <- open_rb filepath ;;
       hash_func <- read_loop (S (Nat.max (disk_size E) (length f))) chunk_size
                      filepath 0 f hash_func ;;
       ret (Some (SHA256.hexdigest hash_func)))
    (fun _ => ret None).

(** Python truthiness of an [Optional[str]]. *)
Definition truthy (s : option string) : bool :=
  match s with
  | Some (String _ _) => true
  | _ => false
  end.

(** The [for attempt in range(max_retries)] loop; [n] iterations are left
    and [attempt] is the loop variable. *)
Fixpoint retry_loop (n : nat) (attempt : Z) (filepath : string) (max_retries : Z)
    : M (option string * bool) :=
  match n with
  | O => ret (None, false)
  | S n' =>
      present <- os_path_exists filepath ;;
      if negb present
      then
        time_sleep (1 # 2) ;;;
        retry_loop n' (attempt + 1) filepath max_retries
      else
        file_hash <- calculate_file_hash filepath "sha256" (HASH_CHUNK_SIZE cfg) ;;
        if truthy file_hash then ret (file_hash, true)
        else
          (if attempt <? max_retries - 1
           then time_sleep ((1 # 2) * inject_Z (attempt + 1))
           else ret tt) ;;;
          retry_loop n' (attempt + 1) filepath max_retries
  end.

Definition calculate_file_hash_with_retry (filepath : string) (max_retries : Z)
    : M (option string * bool) :=
  retry_loop (Z.to_nat max_retries) 0 filepath max_retries.

(** The components of a POSIX path between slashes; [cur] is the component
    being read. *)
Fixpoint components (s cur : string) : list string :=
  match s with
  | EmptyString => [cur]
  | String c rest =>
      if Ascii.eqb c "/" then cur :: components rest ""
      else components rest (cur +:+ String c "")
  end.

(** [Path(filepath).name]: the last component, empty and ["."] components
    dropped as [pathlib] drops them; the empty string if none is left. *)
Definition path_name (filepath : string) : string :=
  List.last
    (List.filter (fun c => negb (String.eqb c "") && negb (String.eqb c "."))
                 (components filepath ""))
    "".

(** [format(s, "12")], the [{event_type:12}] of the manifest entry: strings
    are aligned to the left, the fill goes to the right, nothing is cut. *)
Definition format_width (width : nat) (s : string) : string :=
  s +:+ string_of_list_ascii (repeat " "%char (width - String.length s)).

Definition newline : string := String "010"%char "".

Definition manifest_entry (timestamp event_type file_hash filename : string) : string :=
  timestamp +:+ " | " +:+ format_width 12 event_type +:+ " | " +:+ file_hash
            +:+ " | " +:+ filename +:+ newline.

Definition log_hash_to_manifest (filepath file_hash event_type : string) : M unit :=
  record_call (CallManifest filepath file_hash event_type) ;;;
  mkdir_parents ;;;
  timestamp <- now_isoformat ;;
  let filename := path_name filepath in
  let entry := manifest_entry timestamp event_type file_hash filename in
  catch (append_manifest entry)
        (fun e => match e with PermissionError => ret tt | _ => raise e end).

Definition lower_ascii (c : ascii) : ascii :=
  let n := nat_of_ascii c in
  if (65 <=? n)%nat && (n <=? 90)%nat then ascii_of_nat (n + 32) else c.

(** [str.lower()] on ASCII text. *)
Fixpoint lower (s : string) : string :=
  match s with
  | EmptyString => EmptyString
  | String c rest => String (lower_ascii c) (lower rest)
  end.

Definition verify_file_integrity (filepath expected_hash : string) : M bool :=
  calculated_hash <- calculate_file_hash filepath "sha256" (HASH_CHUNK_SIZE cfg) ;;
  match calculated_hash with
  | None => ret false
  | Some h => ret (String.eqb (lower h) (lower expected_hash))
  end.

(** ** File system event handler *)

Record FileSystemEvent := Event {
  is_directory : bool;
  src_path : string }.

Definition _is_file_locked (filepath : string) : M bool :=
  h <- get_self ;;
  ret (default false (_processing_lock h !! filepath)).

Definition _set_processing (filepath : string) (state : bool) : M unit :=
  h <- get_self ;;
  put_self (Handler (<[filepath := state]> (_processing_lock h)) (_last_modified h)).

Definition _process_file_safe (filepath event_type : string) : M unit :=
  record_call (CallProcess filepath event_type) ;;;
  catch
    (present <- os_path_exists filepath ;;
     if negb present then ret tt
     else
       r <- calculate_file_hash_with_retry filepath (MAX_HASH_RETRIES cfg) ;;
       let file_hash := fst r in
       let success := snd r in
       if success && truthy file_hash
       then
         match file_hash with
         | Some h => log_hash_to_manifest filepath h event_type
         | None => ret tt
         end
       else ret tt)
    (fun _ => ret tt).

(** The body of the [try] block of [on_created]. *)
Definition created_pass (filepath : string) : M unit :=
  stable <- wait_for_file_stability filepath
              (FILE_STABILITY_CHECKS cfg) (FILE_STABILITY_INTERVAL cfg) ;;
  if negb stable then ret tt
  else _process_file_safe filepath "CREATED".

Definition on_created (event : FileSystemEvent) : M unit :=
  if is_directory event then ret tt
  else
    let filepath := src_path event in
    locked <- _is_file_locked filepath ;;
    if locked then ret tt
    else
      _set_processing filepath true ;;;
      finally (created_pass filepath) (_set_processing filepath false).

(** The body of the [try] block of [on_modified]; the result tells whether
    control falls through to the statements after the [try] ([true]) or
    the handler returns from inside it ([false]). *)
Definition modified_pass (filepath : string) : M bool :=
  stable <- wait_for_file_stability filepath
              (FILE_STABILITY_CHECKS cfg) (FILE_STABILITY_INTERVAL cfg) ;;
  if negb stable then ret false
  else _process_file_safe filepath "MODIFIED" ;;; ret true.

(** The clean-up of old debounce entries closing [on_modified]. *)
Definition cleanup_last_modified (current_time : Q) : M unit :=
  h <- get_self ;;
  if (1000 <? size (_last_modified h))%nat
  then
    let cutoff := (current_time - 60)%Q in
    put_self (Handler (_processing_lock h)
                      (filter (fun kv => (cutoff < snd kv)%Q) (_last_modified h)))
  else ret tt.

Definition on_modified (event : FileSystemEvent) : M unit :=
  if is_directory event then ret tt
  else
    let filepath := src_path event in
    current_time <- time_time ;;
    h <- get_self ;;
    let last_time := default 0%Q (_last_modified h !! filepath) in
    if decide (current_time - last_time < 1)%Q then ret tt
    else
      put_self (Handler (_processing_lock h)
                        (<[filepath := current_time]> (_last_modified h))) ;;;
      locked <- _is_file_locked filepath ;;
      if locked then ret tt
      else
        _set_processing filepath true ;;;
        fell_through <- finally (modified_pass filepath)
                                (_set_processing filepath false) ;;
        if fell_through then cleanup_last_modified current_time else ret tt.

Definition on_deleted (event : FileSystemEvent) : M unit :=
  if is_directory event then ret tt
  else
    let filepath := src_path event in
    catch (log_hash_to_manifest filepath "N/A" "DELETED")
          (fun _ => ret tt).

End Program.

(** ** Vocabulary of the statements *)

(** [m] never raises. *)
Definition total {A} (m : M A) : Prop :=
  forall w, exists a w', m w = (Val a, w').

(** Every run of [m] takes a world to one related to it by [R]. *)
Definition keeps (R : relation world) {A} (m : M A) : Prop :=
  forall w, R w (snd (m w)).

(** The relations the frame lemmas below are about. *)
Definition same_self : relation world := fun w w' => self w' = self w.
Definition same_calls : relation world := fun w w' => calls w' = calls w.
Definition same_manifest : relation world := fun w w' => manifest w' = manifest w.
Definition more_calls (P : call -> Prop) : relation world :=
  fun w w' => exists d, calls w' = calls w ++ d /\ Forall P d.

Definition logged (c : call) (w : world) : world :=
  World (tick w) (self w) (manifest w) (calls w ++ [c]).

(** A world in which one readable file holds the three bytes ["abc"]. *)
Definition abc_env : env :=
  Env (fun _ => {[ "/monitored/abc.txt"%string := File (list_byte_of_string "abc") true ]})
      (fun _ => None) (fun _ => 0%Q) (fun _ => "2024-01-01T00:00:00+00:00"%string)
      (2 ^ 30) 4096.

(** What one poll reads as the size: [None] when [os.path.getsize] fails
    with an [OSError], which the loop swallows. *)
Definition polled_size (E : env) (t : nat) (p : string) : result (option Z) :=
  match fault_at E t with
  | Some e => if is_OSError e then Val None else Raise e
  | None =>
      match fs_at E t !! p with
      | None => Val None
      | Some nd => Val (Some (node_size nd))
      end
  end.

(** A world in which one file exists and stays empty. *)
Definition empty_file_env : env :=
  Env (fun _ => {[ "/monitored/empty.txt"%string := File [] true ]})
      (fun _ => None) (fun _ => 0%Q) (fun _ => "2024-01-01T00:00:00+00:00"%string)
      (2 ^ 30) 4096.

(** [test_stable_file_detected]: a file that keeps its fourteen bytes is
    stable at the third poll when two matches are asked for. *)
Definition stable_file_env : env :=
  Env (fun _ => {[ "/monitored/stable.txt"%string :=
                     File (list_byte_of_string "stable content") true ]})
      (fun _ => None) (fun _ => 0%Q) (fun _ => "2024-01-01T00:00:00+00:00"%string)
      (2 ^ 30) 4096.

(** [test_hash_large_file_chunked]: a hundred chunks of 64 KiB, every byte
    [0x58]. *)
Definition large_content : list byte := repeat x58 (Z.to_nat (100 * 65536)).

Definition large_file_env : env :=
  Env (fun _ => {[ "/monitored/large_file.bin"%string := File large_content true ]})
      (fun _ => None) (fun _ => 0%Q) (fun _ => "2024-01-01T00:00:00+00:00"%string)
      (2 ^ 30) (Z.to_nat (2 ^ 24)).

(** The digest the specification quotes for the empty file. *)
Definition spec_quoted_empty_digest : string :=
  "e3b0c44298fc1c149afbf4c8996fb92427ae41e4649b934ca495991b7852b85".

(** A world with no files at all. *)
Definition bare_env : env :=
  Env (fun _ => ∅) (fun _ => None) (fun _ => 0%Q)
      (fun _ => "2024-01-01T00:00:00+00:00"%string) (2 ^ 30) 4096.

(** The layout the specification words describe: the event kind padded on
    the left up to twelve characters. *)
Definition spec_left_padded (width : nat) (s : string) : string :=
  string_of_list_ascii (repeat " "%char (width - String.length s)) +:+ s.

Definition spec_manifest_line (timestamp event_type file_hash filename : string) : string :=
  timestamp +:+ " | " +:+ spec_left_padded 12 event_type +:+ " | " +:+ file_hash
            +:+ " | " +:+ filename +:+ newline.

Definition has_slash (s : string) : bool :=
  existsb (fun c => Ascii.eqb c "/") (list_ascii_of_string s).

Definition pushed (entry : string) (w : world) : world :=
  World (tick w) (self w) (manifest w ++ [entry]) (calls w).

Definition with_self (h : handler) (w : world) : world :=
  World (tick w) h (manifest w) (calls w).

Definition set_lock (p : string) (state : bool) (h : handler) : handler :=
  Handler (<[p := state]> (_processing_lock h)) (_last_modified h).

Definition set_time (p : string) (t : Q) (h : handler) : handler :=
  Handler (_processing_lock h) (<[p := t]> (_last_modified h)).

(** The answer of [_is_file_locked]. *)
Definition locked_in (h : handler) (p : string) : bool :=
  default false (_processing_lock h !! p).

Definition is_stability (c : call) : bool :=
  match c with CallStability _ => true | _ => false end.
Definition is_process (c : call) : bool :=
  match c with CallProcess _ _ => true | _ => false end.
Definition is_leaf (c : call) : bool :=
  match c with CallHasher _ | CallManifest _ _ _ => true | _ => false end.

(** Processing passes started (each one starts with the stability gate), and
    hash-and-log sequences ([_process_file_safe]) invoked. *)
Definition count_stability (cs : list call) : nat := length (List.filter is_stability cs).
Definition count_process (cs : list call) : nat := length (List.filter is_process cs).

(** [for _ in range(n): m] *)
Fixpoint notify (n : nat) (m : M unit) : M unit :=
  match n with
  | O => ret tt
  | S n' => m ;;; notify n' m
  end.

(** The clock does not move by a second between any two readings. *)
Definition burst (E : env) : Prop :=
  forall t t', (time_at E t' - time_at E t < 1)%Q.

(** A world in which one file keeps its seven bytes and the clock stands
    still, as in [TestWatchdogHandler]. *)
Definition rapid_env : env :=
  Env (fun _ => {[ "/monitored/rapid.txt"%string :=
                     File (list_byte_of_string "content") true ]})
      (fun _ => None) (fun _ => 1700000000%Q)
      (fun _ => "2024-01-01T00:00:00+00:00"%string) (2 ^ 30) 4096.

Definition rapid_event : FileSystemEvent := Event false "/monitored/rapid.txt".

(** The same file under a clock that moves only while the handler sleeps.
    With the default settings a pass on this file makes eighteen system
    calls and sleeps three times half a second: the clock is taken to move
    by a twelfth of a second per system call. *)
Definition ticking_env : env :=
  Env (fun _ => {[ "/monitored/rapid.txt"%string :=
                     File (list_byte_of_string "content") true ]})
      (fun _ => None) (fun t => 1700000000 + (Z.of_nat t # 12))%Q
      (fun _ => "2024-01-01T00:00:00+00:00"%string) (2 ^ 30) 4096.

(** The handler after [handler._set_processing(path, True)]. *)
Definition locked_world : world :=
  World 0 (Handler {[ "/monitored/rapid.txt"%string := true ]} ∅) [] [].

(** The handler after a modification of the file was accepted. *)
Definition stamped_world : world :=
  World 7 (Handler ∅ {[ "/monitored/rapid.txt"%string := 1700000000%Q ]}) [] [].

(** The world after [k] system calls that change nothing else. *)
Definition advanced (k : nat) (w : world) : world :=
  World (k + tick w) (self w) (manifest w) (calls w).


(** From tick [t0] on no system call fails and the path holds a readable
    file with the given content. *)
Definition steady_file (E : env) (t0 : nat) (p : string) (content : list byte) : Prop :=
  forall t, (t0 <= t)%nat ->
    fault_at E t = None /\ fs_at E t !! p = Some (File content true).

Definition is_lower_hex (c : ascii) : bool :=
  existsb (Ascii.eqb c) (list_ascii_of_string "0123456789abcdef").

(** The chunk sizes [f.read] accepts and can serve: at least one byte, and
    a buffer that fits in a machine word and can be allocated. *)
Definition chunk_fits (E : env) (chunk_size : Z) : Prop :=
  1 <= chunk_size <= alloc_limit E /\ chunk_size < 2 ^ 63.

(** The largest [max_retries] for which every back-off sleep
    [0.5 * (attempt + 1)], with [attempt < max_retries - 1], is shorter than
    [sleep_limit]. *)
Definition backoff_limit : Z := 18446744074.

(** A world in which the file is there but may not be read. *)
Definition unreadable_env : env :=
  Env (fun _ => {[ "/monitored/secret.txt"%string := File (list_byte_of_string "abc") false ]})
      (fun _ => None) (fun _ => 0%Q) (fun _ => "2024-01-01T00:00:00+00:00"%string)
      (2 ^ 30) 4096.

(** From tick [t0] on the path holds no file content other than [content]:
    the file is not written to, though it may vanish and come back, and
    system calls may fail. *)
Definition unchanged_file (E : env) (t0 : nat) (p : string) (content : list byte) : Prop :=
  forall t c r, (t0 <= t)%nat -> fs_at E t !! p = Some (File c r) -> c = content.

(** No file is longer than the disk. *)
Definition bounded_files (E : env) : Prop :=
  forall t p content r,
    fs_at E t !! p = Some (File content r) -> (length content <= disk_size E)%nat.

(** Sixty-four lowercase hexadecimal characters. *)
Definition is_digest (s : string) : Prop :=
  String.length s = 64%nat /\ forallb is_lower_hex (list_ascii_of_string s) = true.

(** A world in which the file is missing at the first two system calls
    and holds ["abc"] from then on. *)
Definition late_env : env :=
  Env (fun t => match t with
                | O | S O => ∅
                | _ => {[ "/monitored/abc.txt"%string := File (list_byte_of_string "abc") true ]}
                end)
      (fun _ => None) (fun _ => 0%Q) (fun _ => "2024-01-01T00:00:00+00:00"%string)
      (2 ^ 30) 4096.

(** The components [Path(...).name] does not skip. *)
Definition kept (c : string) : bool :=
  negb (String.eqb c "") && negb (String.eqb c ".").

(** A handler that stored a stamp for another path two seconds ago. *)
Definition other_stamp_world : world :=
  World 0 (Handler ∅ {[ "/monitored/other.txt"%string := 1699999998%Q ]}) [] [].

(** [STABILITY_CHECKS=0] and [MAX_HASH_RETRIES=0]. *)
Definition no_checks_config : config := Config 0 (1 # 2) 65536 3.
Definition no_retries_config : config := Config 3 (1 # 2) 65536 0.

(** Every value [m] returns satisfies [P]. *)
Definition returns {A} (P : A -> Prop) (m : M A) : Prop :=
  forall w a w', m w = (Val a, w') -> P a.

(** The manifest is only ever extended. *)
Definition manifest_grows : relation world :=
  fun w w' => exists lines, manifest w' = manifest w ++ lines.

(** ** Reference vectors for the hash object *)

Example sha256_hex_empty :
  sha256_hex [] =
  "e3b0c44298fc1c149afbf4c8996fb92427ae41e4649b934ca495991b7852b855"%string.
Proof. vm_compute. reflexivity. Qed.

Example sha256_hex_abc :
  sha256_hex (list_byte_of_string "abc") =
  "ba7816bf8f01cfea414140de5dae2223b00361a396177a9cb410ff61f20015ad"%string.
Proof. vm_compute. reflexivity. Qed.

Example sha256_hex_fox :
  sha256_hex (list_byte_of_string "The quick brown fox jumps over the lazy dog") =
  "d7a8fbb307d7809469ca9abcb0082e4f8d5651e46d3cdb762d02d0bf37c9e592"%string.
Proof. vm_compute. reflexivity. Qed.

(** 56 bytes: the padding spills into a second block. *)
Example sha256_hex_two_blocks :
  sha256_hex (list_byte_of_string
    "abcdbcdecdefdefgefghfghighijhijkijkljklmklmnlmnomnopnopq") =
  "248d6a61d20638b8e5c026930c3e6039a33ce45964ff2167f6ecedd419db06c1"%string.
Proof. vm_compute. reflexivity. Qed.

(** ** Reasoning about computations *)

Section Keeps.
Variable R : relation world.
Context `{!PreOrder R}.

Lemma keeps_ret {A} (a : A) : keeps R (ret a).
Proof. intros w; simpl; reflexivity. Qed.

Lemma keeps_raise {A} (e : exn) : keeps R (@raise A e).
Proof. intros w; simpl; reflexivity. Qed.

Lemma keeps_get_self : keeps R get_self.
Proof. intros w; simpl; reflexivity. Qed.

Lemma keeps_bind {A B} (m : M A) (k : A -> M B) :
  keeps R m -> (forall a, keeps R (k a)) -> keeps R (bind m k).
Proof.
  intros Hm Hk w. unfold bind. specialize (Hm w).
  destruct (m w) as [[a | e] w1]; simpl in *; [| exact Hm].
  etransitivity; [exact Hm | apply Hk].
Qed.

Lemma keeps_catch {A} (m : M A) (h : exn -> M A) :
  keeps R m -> (forall e, keeps R (h e)) -> keeps R (catch m h).
Proof.
  intros Hm Hh w. unfold catch. specialize (Hm w).
  destruct (m w) as [[a | e] w1]; simpl in *; [exact Hm |].
  etransitivity; [exact Hm | apply Hh].
Qed.

Lemma keeps_finally {A} (m : M A) (f : M unit) :
  keeps R m -> keeps R f -> keeps R (finally m f).
Proof.
  intros Hm Hf w. unfold finally. specialize (Hm w).
  destruct (m w) as [r w1]; simpl in *. specialize (Hf w1).
  destruct (f w1) as [[u | e] w2]; simpl in *; etransitivity; eauto.
Qed.
End Keeps.

Lemma total_ret {A} (a : A) : total (ret a).
Proof. intros w; eexists _, _; reflexivity. Qed.

Lemma total_bind {A B} (m : M A) (k : A -> M B) :
  total m -> (forall a, total (k a)) -> total (bind m k).
Proof.
  intros Hm Hk w. unfold bind. destruct (Hm w) as (a & w1 & ->). apply Hk.
Qed.

Lemma total_catch {A} (m : M A) (h : exn -> M A) :
  (forall e, total (h e)) -> total (catch m h).
Proof.
  intros Hh w. unfold catch. destruct (m w) as [[a | e] w1].
  - eexists _, _; reflexivity.
  - apply Hh.
Qed.

Lemma total_finally {A} (m : M A) (f : M unit) :
  total m -> total f -> total (finally m f).
Proof.
  intros Hm Hf w. unfold finally. destruct (Hm w) as (a & w1 & ->).
  destruct (Hf w1) as (u & w2 & ->). eexists _, _; reflexivity.
Qed.

#[global] Instance same_self_preorder : PreOrder same_self.
Proof. split; unfold same_self; [intros w | intros a b c]; congruence. Qed.
#[global] Instance same_calls_preorder : PreOrder same_calls.
Proof. split; unfold same_calls; [intros w | intros a b c]; congruence. Qed.
#[global] Instance same_manifest_preorder : PreOrder same_manifest.
Proof. split; unfold same_manifest; [intros w | intros a b c]; congruence. Qed.
#[global] Instance more_calls_preorder (P : call -> Prop) : PreOrder (more_calls P).
Proof.
  split.
  - intros w. exists []. split; [by rewrite app_nil_r | constructor].
  - intros a b c (d1 & H1 & F1) (d2 & H2 & F2). exists (d1 ++ d2). split.
    + rewrite H2, H1. by rewrite <- app_assoc.
    + apply Forall_app; auto.
Qed.

Create HintDb keeps.

Ltac keeps_step :=
  first
    [ solve [auto with keeps]
    | apply keeps_ret; typeclasses eauto
    | apply keeps_raise; typeclasses eauto
    | apply keeps_get_self; typeclasses eauto
    | apply keeps_bind; try typeclasses eauto; [| intros ?]
    | apply keeps_catch; try typeclasses eauto; [| intros ?]
    | apply keeps_finally; try typeclasses eauto
    | match goal with
      | |- keeps _ (if ?b then _ else _) => destruct b
      | |- keeps _ (match ?x with _ => _ end) => destruct x
      end ].
Ltac keeps_auto := repeat keeps_step.

(** Frame lemmas, for any relation the primitive state changes respect. *)
Section Frame.
Variable R : relation world.
Context `{!PreOrder R}.
Variable Q : call -> Prop.
Hypothesis Htick : keeps R next_tick.
Hypothesis Hrec : forall c, Q c -> keeps R (record_call c).
Hypothesis Hpush : forall entry, keeps R (push_manifest entry).
Variable E : env.
Variable cfg : config.

Local Hint Resolve Htick Hrec Hpush : keeps.

Lemma keeps_os_path_exists p : keeps R (os_path_exists E p).
Proof. unfold os_path_exists. keeps_auto. Qed.
Lemma keeps_os_path_getsize p : keeps R (os_path_getsize E p).
Proof. unfold os_path_getsize. keeps_auto. Qed.
Lemma keeps_open_rb p : keeps R (open_rb E p).
Proof. unfold open_rb. keeps_auto. Qed.
Lemma keeps_file_read p pos seen n : keeps R (file_read E p pos seen n).
Proof. unfold file_read. cbv zeta. keeps_auto. Qed.
Lemma keeps_time_sleep d : keeps R (time_sleep d).
Proof. unfold time_sleep. keeps_auto. Qed.
Lemma keeps_time_time : keeps R (time_time E).
Proof. unfold time_time. keeps_auto. Qed.
Lemma keeps_now_isoformat : keeps R (now_isoformat E).
Proof. unfold now_isoformat. keeps_auto. Qed.
Lemma keeps_mkdir_parents : keeps R (mkdir_parents E).
Proof. unfold mkdir_parents. keeps_auto. Qed.
Lemma keeps_append_manifest entry : keeps R (append_manifest E entry).
Proof. unfold append_manifest. keeps_auto. Qed.
Lemma keeps_hashlib_new a : keeps R (hashlib_new a).
Proof. unfold hashlib_new. keeps_auto. Qed.

Local Hint Resolve keeps_os_path_exists keeps_os_path_getsize keeps_open_rb
  keeps_file_read keeps_time_sleep keeps_time_time keeps_now_isoformat
  keeps_mkdir_parents keeps_append_manifest keeps_hashlib_new : keeps.

Lemma keeps_stability_loop n p checks interval prev count :
  keeps R (stability_loop E n p checks interval prev count).
Proof.
  revert prev count. induction n as [| n IH]; intros prev count; simpl.
  - keeps_auto.
  - keeps_auto; try apply IH.
Qed.

Lemma keeps_read_loop fuel chunk p pos seen h :
  keeps R (read_loop E fuel chunk p pos seen h).
Proof.
  revert pos seen h. induction fuel as [| fuel IH]; intros pos seen h; simpl.
  - keeps_auto.
  - keeps_auto; try apply IH.
Qed.

Local Hint Resolve keeps_stability_loop keeps_read_loop : keeps.

Lemma keeps_wait_for_file_stability p checks interval :
  Q (CallStability p) -> keeps R (wait_for_file_stability E p checks interval).
Proof. intros HQ. unfold wait_for_file_stability. keeps_auto. Qed.

Lemma keeps_calculate_file_hash p a chunk :
  Q (CallHasher p) -> keeps R (calculate_file_hash E p a chunk).
Proof. intros HQ. unfold calculate_file_hash. keeps_auto. Qed.

Local Hint Resolve keeps_calculate_file_hash : keeps.

Lemma keeps_retry_loop n attempt p max_retries :
  Q (CallHasher p) -> keeps R (retry_loop E cfg n attempt p max_retries).
Proof.
  intros HQ. revert attempt. induction n as [| n IH]; intros attempt; simpl.
  - keeps_auto.
  - keeps_auto; try apply IH.
Qed.

Lemma keeps_calculate_file_hash_with_retry p max_retries :
  Q (CallHasher p) -> keeps R (calculate_file_hash_with_retry E cfg p max_retries).
Proof. intros HQ. unfold calculate_file_hash_with_retry. by apply keeps_retry_loop. Qed.

Lemma keeps_log_hash_to_manifest p h k :
  Q (CallManifest p h k) -> keeps R (log_hash_to_manifest E p h k).
Proof. intros HQ. unfold log_hash_to_manifest. keeps_auto. Qed.

Local Hint Resolve keeps_calculate_file_hash_with_retry keeps_log_hash_to_manifest : keeps.

(** What [_process_file_safe] does after recording its own invocation. *)
Lemma keeps_process_body p k :
  Q (CallHasher p) -> (forall h, Q (CallManifest p h k)) ->
  keeps R
    (catch
       (bind (os_path_exists E p) (fun present =>
          if negb present then ret tt
          else
            bind (calculate_file_hash_with_retry E cfg p (MAX_HASH_RETRIES cfg))
              (fun r =>
                 if snd r && truthy (fst r)
                 then match fst r with
                      | Some h => log_hash_to_manifest E p h k
                      | None => ret tt
                      end
                 else ret tt)))
       (fun _ => ret tt)).
Proof. intros H1 H2. keeps_auto. Qed.

Lemma keeps_process_file_safe p k :
  Q (CallProcess p k) -> Q (CallHasher p) -> (forall h, Q (CallManifest p h k)) ->
  keeps R (_process_file_safe E cfg p k).
Proof.
  intros H0 H1 H2. unfold _process_file_safe.
  apply keeps_bind; try typeclasses eauto; [auto with keeps | intros _].
  by apply keeps_process_body.
Qed.
End Frame.

(** Running a sequence step by step. *)
Lemma run_bind_val {A B} (m : M A) (k : A -> M B) w a w' :
  m w = (Val a, w') -> bind m k w = k a w'.
Proof. intros H. unfold bind. by rewrite H. Qed.

Lemma run_bind_raise {A B} (m : M A) (k : A -> M B) w e w' :
  m w = (Raise e, w') -> bind m k w = (Raise e, w').
Proof. intros H. unfold bind. by rewrite H. Qed.

Lemma run_catch_val {A} (m : M A) (h : exn -> M A) w a w' :
  m w = (Val a, w') -> catch m h w = (Val a, w').
Proof. intros H. unfold catch. by rewrite H. Qed.

Lemma run_catch_raise {A} (m : M A) (h : exn -> M A) w e w' :
  m w = (Raise e, w') -> catch m h w = h e w'.
Proof. intros H. unfold catch. by rewrite H. Qed.

Lemma run_record_call c w : record_call c w = (Val tt, logged c w).
Proof. reflexivity. Qed.

Lemma run_next_tick w : next_tick w = (Val (tick w), advance w).
Proof. reflexivity. Qed.

Section Run.
Variable E : env.

Lemma run_os_path_exists p w :
  os_path_exists E p w = (Val (present_at E (tick w) p), advance w).
Proof. reflexivity. Qed.

Lemma run_open_rb p w content :
  fault_at E (tick w) = None ->
  fs_at E (tick w) !! p = Some (File content true) ->
  open_rb E p w = (Val content, advance w).
Proof.
  intros Hf Hp. unfold open_rb. rewrite (run_bind_val _ _ _ _ _ (run_next_tick w)).
  by rewrite Hf, Hp.
Qed.

Lemma run_file_read p pos seen content r n w :
  chunk_fits E n ->
  fault_at E (tick w) = None ->
  fs_at E (tick w) !! p = Some (File content r) ->
  file_read E p pos seen n w =
    (Val (firstn (Z.to_nat n) (skipn pos content), content), advance w).
Proof.
  intros [[Hn1 Hn2] Hn3] Hf Hp. unfold file_read.
  destruct (Z.ltb_spec n (-1)); [lia |].
  destruct (Z.leb_spec (2 ^ 63) n); [lia |].
  rewrite (run_bind_val _ _ _ _ _ (run_next_tick w)).
  rewrite Hf, Hp. cbv zeta.
  destruct (Z.eqb_spec n (-1)); [lia |].
  destruct (Z.ltb_spec (alloc_limit E) n); [lia | reflexivity].
Qed.

Lemma present_at_file t p nd :
  fault_at E t = None -> fs_at E t !! p = Some nd -> present_at E t p = true.
Proof.
  intros Hf Hp. unfold present_at. rewrite Hf, Hp.
  apply bool_decide_eq_true_2. eauto.
Qed.
End Run.

(** The primitive state changes and the relations they respect. *)
Lemma next_tick_same_self : keeps same_self next_tick.
Proof. by intros w. Qed.
Lemma record_call_same_self c : keeps same_self (record_call c).
Proof. by intros w. Qed.
Lemma push_manifest_same_self entry : keeps same_self (push_manifest entry).
Proof. by intros w. Qed.
Lemma next_tick_same_manifest : keeps same_manifest next_tick.
Proof. by intros w. Qed.
Lemma record_call_same_manifest c : keeps same_manifest (record_call c).
Proof. by intros w. Qed.
Lemma next_tick_same_calls : keeps same_calls next_tick.
Proof. by intros w. Qed.
Lemma push_manifest_same_calls entry : keeps same_calls (push_manifest entry).
Proof. by intros w. Qed.
Lemma next_tick_more_calls P : keeps (more_calls P) next_tick.
Proof. intros w. exists []. simpl. split; [by rewrite app_nil_r | constructor]. Qed.
Lemma push_manifest_more_calls P entry : keeps (more_calls P) (push_manifest entry).
Proof. intros w. exists []. simpl. split; [by rewrite app_nil_r | constructor]. Qed.
Lemma record_call_more_calls (P : call -> Prop) c :
  P c -> keeps (more_calls P) (record_call c).
Proof. intros HP w. exists [c]. simpl. split; [done | by repeat constructor]. Qed.

(** ** Hasher *)

Section Hasher.
Variable E : env.

Lemma update_app h (a b : list byte) :
  SHA256.update (SHA256.update h a) b = SHA256.update h (a ++ b).
Proof. unfold SHA256.update. by rewrite fold_left_app. Qed.

(** Feeding the hash object chunk by chunk leaves it in the state one
    [update] with the whole content gives. *)
Lemma firstn_skipn_length {A} n (l : list A) :
  firstn n l ++ skipn (length (firstn n l)) l = l.
Proof.
  destruct (Nat.le_gt_cases n (length l)) as [Hle | Hgt].
  - rewrite length_firstn, Nat.min_l by done. apply firstn_skipn.
  - rewrite firstn_all2 by lia. rewrite skipn_all. apply app_nil_r.
Qed.

Lemma read_loop_whole fuel chunk_size p pos seen content h w :
  chunk_fits E chunk_size ->
  (length content - pos < fuel)%nat ->
  (forall t, (tick w <= t)%nat -> fault_at E t = None) ->
  (forall t, (tick w <= t)%nat -> fs_at E t !! p = Some (File content true)) ->
  exists w', read_loop E fuel chunk_size p pos seen h w
             = (Val (SHA256.update h (skipn pos content)), w').
Proof.
  revert pos seen h w.
  induction fuel as [| fuel IH]; intros pos seen h w Hc Hlen Hok Hfs; [lia |].
  cbn [read_loop].
  rewrite (run_bind_val _ _ _ _ _
             (run_file_read E p pos seen content true chunk_size w Hc
                (Hok _ (le_n _)) (Hfs _ (le_n _)))).
  cbn [fst snd].
  destruct (Z.to_nat chunk_size) as [| n] eqn:Hn; [unfold chunk_fits in Hc; lia |].
  destruct (skipn pos content) as [| b rest] eqn:Hrest; [eexists; reflexivity |].
  assert (Hpos : (length content - pos = S (length rest))%nat).
  { rewrite <- length_skipn, Hrest. reflexivity. }
  set (chunk := firstn (S n) (b :: rest)).
  destruct (IH (pos + length chunk)%nat content (SHA256.update h chunk) (advance w) Hc)
    as [w' Hw'].
  - subst chunk. cbn [firstn length]. lia.
  - intros t Ht. apply Hok. simpl in Ht. lia.
  - intros t Ht. apply Hfs. simpl in Ht. lia.
  - exists w'. subst chunk. cbn [firstn] in *. rewrite Hw'. rewrite update_app.
    rewrite (Nat.add_comm pos), <- skipn_skipn, Hrest.
    change (b :: firstn n rest) with (firstn (S n) (b :: rest)).
    by rewrite firstn_skipn_length.
Qed.

(** A read that returns bytes found them beyond the position of the
    handle. *)
Lemma file_read_seen p pos seen n w r w1 :
  bounded_files E -> (length seen <= disk_size E)%nat ->
  file_read E p pos seen n w = (Val r, w1) ->
  (length (snd r) <= disk_size E)%nat /\ (fst r = [] \/ (pos < length (snd r))%nat).
Proof.
  intros Hb Hseen. unfold file_read.
  destruct (n <? -1); [by intros [=] |]. destruct (2 ^ 63 <=? n); [by intros [=] |].
  unfold bind, next_tick. destruct (fault_at E (tick w)); [by intros [=] |]. cbv zeta.
  match goal with |- context [skipn pos ?l] => set (live := l) end.
  assert (Hlive : (length live <= disk_size E)%nat).
  { subst live. destruct (fs_at E (tick w) !! p) as [[size | c r0] |] eqn:Hp; eauto. }
  destruct (n =? -1).
  - destruct (alloc_limit E <? _); [by intros [=] |]. intros [= <- _]. cbn [fst snd].
    split; [exact Hlive |]. destruct (skipn pos live) eqn:Hs; [by left | right].
    apply (f_equal length) in Hs. rewrite length_skipn in Hs. simpl in Hs. lia.
  - destruct (alloc_limit E <? n); [by intros [=] |]. intros [= <- _]. cbn [fst snd].
    split; [exact Hlive |].
    destruct (firstn (Z.to_nat n) (skipn pos live)) eqn:Hf; [by left | right].
    apply (f_equal length) in Hf. rewrite length_firstn, length_skipn in Hf.
    simpl in Hf. lia.
Qed.

(** On a disk no file outgrows, the allowance of the loop is never used up:
    a larger one changes nothing. *)
Lemma read_loop_fuel_enough fuel extra chunk_size p pos seen h w :
  bounded_files E -> (length seen <= disk_size E)%nat ->
  (disk_size E - pos < fuel)%nat ->
  read_loop E (fuel + extra) chunk_size p pos seen h w
  = read_loop E fuel chunk_size p pos seen h w.
Proof.
  intros Hb. revert pos seen h w.
  induction fuel as [| fuel IH]; intros pos seen h w Hseen Hlt; [lia |].
  cbn [Nat.add read_loop].
  destruct (file_read E p pos seen chunk_size w) as [[r | e] w1] eqn:Hr.
  - rewrite !(run_bind_val _ _ _ _ _ Hr).
    destruct (file_read_seen _ _ _ _ _ _ _ Hb Hseen Hr) as [Hlen Hchunk].
    destruct (fst r) as [| b chunk] eqn:Hfst; [reflexivity |].
    destruct Hchunk as [Hnil | Hpos]; [done |].
    apply IH; [exact Hlen | simpl; lia].
  - by rewrite !(run_bind_raise _ _ _ _ _ Hr).
Qed.

Lemma hexdigest_length st : String.length (SHA256.hexdigest st) = 64%nat.
Proof. reflexivity. Qed.

Lemma calculate_file_hash_total p a chunk : total (calculate_file_hash E p a chunk).
Proof.
  unfold calculate_file_hash. apply total_bind; [intros w; by eexists _, _ | intros _].
  apply total_catch. intros _. apply total_ret.
Qed.

(** Reading the file chunk by chunk gives the digest of the whole content. *)
Lemma calculate_file_hash_chunked (p : string) (content : list byte) (chunk_size : Z)
    (w : world) :
  chunk_fits E chunk_size ->
  (forall t, (tick w <= t)%nat -> fault_at E t = None) ->
  (forall t, (tick w <= t)%nat -> fs_at E t !! p = Some (File content true)) ->
  fst (calculate_file_hash E p "sha256" chunk_size w) = Val (Some (sha256_hex content)).
Proof.
  intros Hc Hok Hfs.
  set (w1 := logged (CallHasher p) w).
  assert (Hok1 : forall t, (tick w1 <= t)%nat -> fault_at E t = None) by exact Hok.
  assert (Hfs1 : forall t, (tick w1 <= t)%nat -> fs_at E t !! p = Some (File content true))
    by exact Hfs.
  destruct (read_loop_whole (S (Nat.max (disk_size E) (length content))) chunk_size
              p 0 content content SHA256.init (advance (advance w1)) Hc) as [w' Hw'];
    [lia | intros t Ht; apply Hok; simpl in Ht; lia
     | intros t Ht; apply Hfs; simpl in Ht; lia |].
  unfold calculate_file_hash.
  rewrite (run_bind_val _ _ _ _ _ (run_record_call _ w)). fold w1.
  erewrite run_catch_val; [reflexivity |].
  rewrite (run_bind_val _ _ _ _ _ (run_os_path_exists E p w1)).
  rewrite (present_at_file E _ p (File content true)) by (auto using le_n).
  cbn [negb]. unfold hashlib_new. cbn [String.eqb Ascii.eqb Bool.eqb].
  rewrite (run_bind_val _ _ (advance w1) SHA256.init (advance w1) eq_refl).
  erewrite run_bind_val; [| apply run_open_rb; [apply Hok1 | apply Hfs1]; simpl; lia].
  rewrite (run_bind_val _ _ _ _ _ Hw'). reflexivity.
Qed.

(** C1.  Whatever bytes [content] the file holds, [calculate_file_hash] returns
    the lowercase hexadecimal SHA-256 digest
    [hashlib.sha256(content).hexdigest()] of them, 64 characters long, for
    every chunk size [f.read] can serve (at least one byte and a buffer that
    can be allocated: the default 64 KiB, say), provided the file stays in
    place, readable and unchanged and no system call fails. *)
Theorem calculate_file_hash_is_sha256 (p : string) (content : list byte) (chunk_size : Z)
    (w : world) :
  chunk_fits E chunk_size ->
  (forall t, (tick w <= t)%nat -> fault_at E t = None) ->
  (forall t, (tick w <= t)%nat -> fs_at E t !! p = Some (File content true)) ->
  fst (calculate_file_hash E p "sha256" chunk_size w) = Val (Some (sha256_hex content)) /\
  String.length (sha256_hex content) = 64%nat.
Proof.
  intros Hc Hok Hfs. split; [by apply calculate_file_hash_chunked | apply hexdigest_length].
Qed.
End Hasher.

Lemma calculate_file_hash_is_sha256_witness :
  fst (calculate_file_hash abc_env "/monitored/abc.txt" "sha256" 65536 new_world)
    = Val (Some (sha256_hex (list_byte_of_string "abc"))) /\
  String.length (sha256_hex (list_byte_of_string "abc")) = 64%nat.
Proof.
  apply (calculate_file_hash_is_sha256 abc_env "/monitored/abc.txt"
           (list_byte_of_string "abc") 65536 new_world).
  - by vm_compute.
  - intros t _. reflexivity.
  - intros t _. reflexivity.
Defined.

(** [test_hash_empty_file]. *)
Example calculate_file_hash_empty_file :
  fst (calculate_file_hash empty_file_env "/monitored/empty.txt" "sha256" 65536 new_world)
  = Val (Some "e3b0c44298fc1c149afbf4c8996fb92427ae41e4649b934ca495991b7852b855"%string).
Proof. vm_compute. reflexivity. Qed.

(** The digest quoted in the specification has 63 characters: it is the
    digest of the empty file without its last character. *)
Example spec_quoted_empty_digest_short :
  String.length spec_quoted_empty_digest = 63%nat /\
  sha256_hex [] = spec_quoted_empty_digest +:+ "5" /\
  sha256_hex [] <> spec_quoted_empty_digest.
Proof. vm_compute. repeat split. discriminate. Qed.

(** A file read in chunks of two bytes, and in one read of size [-1]. *)
Example calculate_file_hash_small_chunks :
  fst (calculate_file_hash abc_env "/monitored/abc.txt" "sha256" 2 new_world)
    = Val (Some (sha256_hex (list_byte_of_string "abc"))) /\
  fst (calculate_file_hash abc_env "/monitored/abc.txt" "sha256" (-1) new_world)
    = Val (Some (sha256_hex (list_byte_of_string "abc"))).
Proof. vm_compute. split; reflexivity. Qed.

(** With a chunk size of zero the first read is empty and the loop stops:
    the digest is the one of the empty string whatever the file holds. *)
Example calculate_file_hash_zero_chunk :
  fst (calculate_file_hash abc_env "/monitored/abc.txt" "sha256" 0 new_world)
    = Val (Some (sha256_hex [])).
Proof. vm_compute. reflexivity. Qed.

(** A chunk size below [-1], or one that does not fit in a machine word or
    in memory, makes the first read raise: the hasher returns [None]. *)
Example calculate_file_hash_refused_chunks :
  fst (calculate_file_hash abc_env "/monitored/abc.txt" "sha256" (-2) new_world)
    = Val None /\
  fst (calculate_file_hash abc_env "/monitored/abc.txt" "sha256" (2 ^ 63) new_world)
    = Val None /\
  fst (calculate_file_hash abc_env "/monitored/abc.txt" "sha256" (2 ^ 40) new_world)
    = Val None.
Proof. vm_compute. repeat split. Qed.

(** [test_hash_large_file_chunked]: the digest of the hundred chunks is the
    digest of their concatenation. *)
Example calculate_file_hash_large_file :
  fst (calculate_file_hash large_file_env "/monitored/large_file.bin" "sha256" 65536
         new_world)
  = Val (Some (sha256_hex large_content)).
Proof.
  apply (calculate_file_hash_chunked large_file_env "/monitored/large_file.bin"
           large_content 65536 new_world).
  - by vm_compute.
  - intros t _. reflexivity.
  - intros t _. apply lookup_singleton_eq.
Qed.

(** [test_hash_nonexistent_file]. *)
Example calculate_file_hash_missing_file :
  fst (calculate_file_hash bare_env "/nonexistent/path/to/file.txt" "sha256" 65536
         new_world) = Val None.
Proof. vm_compute. reflexivity. Qed.

(** ** Stability gate *)

Section Stability.
Variable E : env.

Lemma run_getsize_caught p w :
  catch (s <- os_path_getsize E p ;; ret (Some s))
        (fun e => if is_OSError e then ret None else raise e) w
  = (polled_size E (tick w) p, advance w).
Proof.
  unfold catch, bind, os_path_getsize, bind, next_tick, polled_size.
  destruct (fault_at E (tick w)) as [e |]; simpl.
  - by destruct (is_OSError e).
  - by destruct (fs_at E (tick w) !! p).
Qed.


Lemma stability_loop_zero_size n p checks interval previous_size stable_count w :
  (forall t nd, (tick w <= t)%nat -> fs_at E t !! p = Some nd -> node_size nd = 0) ->
  exists r w',
    stability_loop E n p checks interval previous_size stable_count w = (r, w') /\
    r <> Val true /\ (tick w' <= tick w + 2 * n)%nat.
Proof.
  revert previous_size stable_count w.
  induction n as [| n IH]; intros prev count w Hz.
  - eexists _, _. split; [reflexivity |]. split; [discriminate | lia].
  - assert (Hnext : forall prev' count',
      exists r w',
        stability_loop E n p checks interval prev' count' (advance (advance w)) = (r, w') /\
        r <> Val true /\ (tick w' <= tick w + 2 * S n)%nat).
    { intros prev' count'.
      destruct (IH prev' count' (advance (advance w))) as (r & w' & Hr & Hne & Ht).
      - intros t nd Ht. apply Hz. simpl in Ht. lia.
      - exists r, w'. split; [exact Hr |]. split; [exact Hne |]. simpl in Ht. lia. }
    cbn [stability_loop].
    rewrite (run_bind_val _ _ _ _ _ (run_os_path_exists E p w)).
    destruct (present_at E (tick w) p); cbn [negb].
    2: { eexists _, _. split; [reflexivity |]. split; [discriminate | simpl; lia]. }
    pose proof (run_getsize_caught p (advance w)) as Hg.
    destruct (polled_size E (tick (advance w)) p) as [[size |] | e] eqn:Hs.
    + rewrite (run_bind_val _ _ _ _ _ Hg).
      assert (size = 0) as ->.
      { unfold polled_size in Hs. destruct (fault_at E (tick (advance w))) as [e |].
        - by destruct (is_OSError e).
        - destruct (fs_at E (tick (advance w)) !! p) as [nd |] eqn:Hnd; [| done].
          injection Hs as <-. apply (Hz (tick (advance w))); [simpl; lia | exact Hnd]. }
      replace ((0 =? prev) && (0 <? 0)) with false by (by rewrite andb_false_r).
      unfold time_sleep.
      destruct (decide (interval < 0)%Q); [| destruct (decide (interval < sleep_limit)%Q)].
      * eexists _, _. split; [reflexivity |]. split; [discriminate | simpl; lia].
      * apply Hnext.
      * eexists _, _. split; [reflexivity |]. split; [discriminate | simpl; lia].
    + rewrite (run_bind_val _ _ _ _ _ Hg).
      unfold time_sleep.
      destruct (decide (interval < 0)%Q); [| destruct (decide (interval < sleep_limit)%Q)].
      * eexists _, _. split; [reflexivity |]. split; [discriminate | simpl; lia].
      * apply Hnext.
      * eexists _, _. split; [reflexivity |]. split; [discriminate | simpl; lia].
    + rewrite (run_bind_raise _ _ _ _ _ Hg).
      eexists _, _. split; [reflexivity |]. split; [discriminate | simpl; lia].
Qed.

(** C3.  A file that reads as zero bytes at every poll is never judged
    stable: for every required number of matches [checks >= 1] the call
    returns [False] without raising, after at most [3 * checks] polls (each
    poll is at most two system calls: [os.path.exists] and
    [os.path.getsize]). *)
Theorem wait_for_file_stability_zero_size (p : string) (checks : Z) (interval : Q)
    (w : world) :
  1 <= checks ->
  (forall t nd, (tick w <= t)%nat -> fs_at E t !! p = Some nd -> node_size nd = 0) ->
  exists w',
    wait_for_file_stability E p checks interval w = (Val false, w') /\
    (tick w' <= tick w + 2 * Z.to_nat (3 * checks))%nat.
Proof.
  intros _ Hz. unfold wait_for_file_stability.
  rewrite (run_bind_val _ _ _ _ _ (run_record_call _ w)).
  destruct (stability_loop_zero_size (Z.to_nat (checks * 3)) p checks interval (-1) 0
              (logged (CallStability p) w) Hz) as (r & w' & Hr & Hne & Ht).
  replace (3 * checks) with (checks * 3) by lia.
  exists w'. split; [| exact Ht].
  unfold catch. rewrite Hr. destruct r as [[|] | e]; [congruence | reflexivity | reflexivity].
Qed.

Lemma wait_for_file_stability_total p checks interval :
  total (wait_for_file_stability E p checks interval).
Proof.
  unfold wait_for_file_stability. apply total_bind; [intros w; by eexists _, _ | intros _].
  apply total_catch. intros _. apply total_ret.
Qed.
End Stability.

Lemma wait_for_file_stability_zero_size_witness :
  exists w',
    wait_for_file_stability empty_file_env "/monitored/empty.txt" 2 (1 # 10) new_world
      = (Val false, w') /\
    (tick w' <= tick new_world + 2 * Z.to_nat (3 * 2))%nat.
Proof.
  apply (wait_for_file_stability_zero_size empty_file_env "/monitored/empty.txt" 2
           (1 # 10) new_world).
  - lia.
  - intros t nd _ H. vm_compute in H. injection H as <-. reflexivity.
Defined.

Example wait_for_file_stability_stable_file :
  let r := wait_for_file_stability stable_file_env "/monitored/stable.txt" 2 (1 # 10)
             new_world in
  fst r = Val true /\ tick (snd r) = 6%nat.
Proof. vm_compute. split; reflexivity. Qed.

(** [test_empty_file_eventually_stabilizes]: all six polls are spent. *)
Example wait_for_file_stability_empty_file :
  let r := wait_for_file_stability empty_file_env "/monitored/empty.txt" 2 (1 # 10)
             new_world in
  fst r = Val false /\ tick (snd r) = 12%nat.
Proof. vm_compute. split; reflexivity. Qed.

#[global] Hint Extern 0 (PreOrder _) => typeclasses eauto : keeps.
#[global] Hint Resolve next_tick_same_self record_call_same_self push_manifest_same_self
  next_tick_same_manifest record_call_same_manifest next_tick_same_calls
  push_manifest_same_calls next_tick_more_calls push_manifest_more_calls : keeps.
#[global] Hint Resolve keeps_os_path_exists keeps_os_path_getsize keeps_open_rb
  keeps_file_read keeps_time_sleep keeps_time_time keeps_now_isoformat
  keeps_mkdir_parents keeps_append_manifest keeps_hashlib_new
  keeps_stability_loop keeps_read_loop : keeps.

(** ** Retry policy *)

Section Retry.
Variable E : env.
Variable cfg : config.

(** One run of the hasher is one entry in the call log. *)
Lemma calculate_file_hash_calls p a chunk w :
  calls (snd (calculate_file_hash E p a chunk w)) = calls w ++ [CallHasher p].
Proof.
  unfold calculate_file_hash. rewrite (run_bind_val _ _ _ _ _ (run_record_call _ w)).
  match goal with
  | |- calls (snd (?m ?w1)) = _ =>
      assert (H : keeps same_calls m) by keeps_auto; exact (H w1)
  end.
Qed.

(** The hasher only moves the clock forward. *)
Lemma calculate_file_hash_later p a chunk w :
  (tick w <= tick (snd (calculate_file_hash E p a chunk w)))%nat.
Proof.
  assert (Hpre : PreOrder (fun a b : world => (tick a <= tick b)%nat))
    by (split; [intros x | intros x y z]; lia).
  apply (keeps_calculate_file_hash (fun a b => (tick a <= tick b)%nat) (fun _ => True));
    [by intros x; simpl; lia | | done].
  intros c _ x. simpl. lia.
Qed.

Lemma run_time_sleep seconds w :
  (0 <= seconds < sleep_limit)%Q -> time_sleep seconds w = (Val tt, w).
Proof.
  intros [H0 H1]. unfold time_sleep.
  destruct (decide (seconds < 0)%Q); [lra |].
  by destruct (decide (seconds < sleep_limit)%Q).
Qed.

Lemma time_sleep_cases seconds w :
  time_sleep seconds w = (Val tt, w) \/ exists e, time_sleep seconds w = (Raise e, w).
Proof.
  unfold time_sleep. destruct (decide (seconds < 0)%Q); [right; by eexists |].
  destruct (decide (seconds < sleep_limit)%Q); [by left | right; by eexists].
Qed.

Lemma sleep_half w : time_sleep (1 # 2) w = (Val tt, w).
Proof. reflexivity. Qed.

Lemma sleep_backoff attempt w :
  0 <= attempt -> attempt + 1 < backoff_limit ->
  time_sleep ((1 # 2) * inject_Z (attempt + 1)) w = (Val tt, w).
Proof.
  intros Ha Hb. apply run_time_sleep.
  unfold sleep_limit, backoff_limit, Qle, Qlt in *.
  cbn [Qnum Qden Qmult inject_Z]. lia.
Qed.

(** An attempt that finds the path missing is spent: the loop goes on
    with one attempt less, and nothing but the clock has moved. *)
Lemma retry_loop_absent n attempt p max_retries w :
  present_at E (tick w) p = false ->
  retry_loop E cfg (S n) attempt p max_retries w =
  retry_loop E cfg n (attempt + 1) p max_retries (advance w).
Proof.
  intros Hp. cbn [retry_loop].
  rewrite (run_bind_val _ _ _ _ _ (run_os_path_exists E p w)). rewrite Hp. cbn [negb].
  by rewrite (run_bind_val _ _ _ _ _ (sleep_half _)).
Qed.

Lemma retry_loop_result n attempt p max_retries w :
  0 <= attempt ->
  max_retries <= backoff_limit ->
  exists r w' k,
    retry_loop E cfg n attempt p max_retries w = (Val r, w') /\
    (r = (None, false) \/ exists d, r = (Some d, true) /\ d <> ""%string) /\
    calls w' = calls w ++ repeat (CallHasher p) k /\ (k <= n)%nat.
Proof.
  intros Ha Hmax. revert attempt w Ha. induction n as [| n IH]; intros attempt w Ha.
  - exists (None, false), w, 0%nat. simpl. rewrite app_nil_r. auto.
  - destruct (present_at E (tick w) p) eqn:Hp.
    + cbn [retry_loop].
      rewrite (run_bind_val _ _ _ _ _ (run_os_path_exists E p w)). rewrite Hp. cbn [negb].
      pose proof (calculate_file_hash_calls p "sha256" (HASH_CHUNK_SIZE cfg) (advance w))
        as Hcalls.
      destruct (calculate_file_hash_total E p "sha256" (HASH_CHUNK_SIZE cfg) (advance w))
        as (h & w1 & Hh).
      rewrite Hh in Hcalls. simpl in Hcalls.
      rewrite (run_bind_val _ _ _ _ _ Hh).
      destruct (truthy h) eqn:Ht.
      * exists (h, true), w1, 1%nat. split; [reflexivity |]. split; [| split; [exact Hcalls | lia]].
        right. destruct h as [[| c d] |]; try discriminate. by eexists.
      * destruct (IH (attempt + 1) w1) as (r & w' & k & Hr & Hshape & Hc & Hk); [lia |].
        exists r, w', (S k).
        assert (Hsleep : (if attempt <? max_retries - 1
                          then time_sleep ((1 # 2) * inject_Z (attempt + 1))
                          else ret tt) w1 = (Val tt, w1)).
        { destruct (Z.ltb_spec attempt (max_retries - 1));
            [apply sleep_backoff; lia | reflexivity]. }
        rewrite (run_bind_val _ _ _ _ _ Hsleep).
        split; [exact Hr |]. split; [exact Hshape |]. split; [| lia].
        rewrite Hc, Hcalls. by rewrite <- app_assoc.
    + rewrite (retry_loop_absent _ _ _ _ _ Hp).
      destruct (IH (attempt + 1) (advance w)) as (r & w' & k & Hr & Hshape & Hc & Hk); [lia |].
      exists r, w', k. repeat split; auto.
Qed.

(** Without a bound on [max_retries] a back-off sleep may raise; the
    hasher is still invoked at most once per attempt. *)
Lemma retry_loop_outcome n attempt p max_retries w :
  exists r w' k,
    retry_loop E cfg n attempt p max_retries w = (r, w') /\
    (r = Val (None, false) \/ (exists d, r = Val (Some d, true) /\ d <> ""%string) \/
     exists e, r = Raise e) /\
    calls w' = calls w ++ repeat (CallHasher p) k /\ (k <= n)%nat.
Proof.
  revert attempt w. induction n as [| n IH]; intros attempt w.
  - exists (Val (None, false)), w, 0%nat. simpl. rewrite app_nil_r. auto.
  - destruct (present_at E (tick w) p) eqn:Hp.
    + cbn [retry_loop].
      rewrite (run_bind_val _ _ _ _ _ (run_os_path_exists E p w)). rewrite Hp. cbn [negb].
      pose proof (calculate_file_hash_calls p "sha256" (HASH_CHUNK_SIZE cfg) (advance w))
        as Hcalls.
      destruct (calculate_file_hash_total E p "sha256" (HASH_CHUNK_SIZE cfg) (advance w))
        as (h & w1 & Hh).
      rewrite Hh in Hcalls. simpl in Hcalls.
      rewrite (run_bind_val _ _ _ _ _ Hh).
      destruct (truthy h) eqn:Ht.
      * exists (Val (h, true)), w1, 1%nat.
        split; [reflexivity |]. split; [| split; [exact Hcalls | lia]].
        right. left. destruct h as [[| c d] |]; try discriminate. by eexists.
      * assert (Hsleep : (if attempt <? max_retries - 1
                          then time_sleep ((1 # 2) * inject_Z (attempt + 1))
                          else ret tt) w1 = (Val tt, w1) \/
                         exists e, (if attempt <? max_retries - 1
                          then time_sleep ((1 # 2) * inject_Z (attempt + 1))
                          else ret tt) w1 = (Raise e, w1)).
        { destruct (attempt <? max_retries - 1); [apply time_sleep_cases | by left]. }
        destruct Hsleep as [Hsleep | [e Hsleep]].
        -- destruct (IH (attempt + 1) w1) as (r & w' & k & Hr & Hshape & Hc & Hk).
           exists r, w', (S k). rewrite (run_bind_val _ _ _ _ _ Hsleep).
           split; [exact Hr |]. split; [exact Hshape |]. split; [| lia].
           rewrite Hc, Hcalls. by rewrite <- app_assoc.
        -- exists (Raise e), w1, 1%nat. rewrite (run_bind_raise _ _ _ _ _ Hsleep).
           split; [reflexivity |]. split; [right; right; by eexists |].
           split; [exact Hcalls | lia].
    + rewrite (retry_loop_absent _ _ _ _ _ Hp).
      destruct (IH (attempt + 1) (advance w)) as (r & w' & k & Hr & Hshape & Hc & Hk).
      exists r, w', k. repeat split; auto.
Qed.

(** When every attempt fails, the path missing or the hasher returning
    [None], the loop runs out with [(None, False)]. *)
Lemma retry_loop_all_fail n attempt p max_retries w :
  0 <= attempt ->
  max_retries <= backoff_limit ->
  (forall w0, (tick w <= tick w0)%nat ->
     present_at E (tick w0) p = false \/
     fst (calculate_file_hash E p "sha256" (HASH_CHUNK_SIZE cfg) (advance w0)) = Val None) ->
  exists w', retry_loop E cfg n attempt p max_retries w = (Val (None, false), w').
Proof.
  intros Ha Hmax. revert attempt w Ha. induction n as [| n IH]; intros attempt w Ha Hfail.
  - by exists w.
  - destruct (present_at E (tick w) p) eqn:Hp.
    + cbn [retry_loop].
      rewrite (run_bind_val _ _ _ _ _ (run_os_path_exists E p w)). rewrite Hp. cbn [negb].
      destruct (Hfail w (le_n _)) as [Hgone | Hnone]; [congruence |].
      pose proof (calculate_file_hash_later p "sha256" (HASH_CHUNK_SIZE cfg) (advance w))
        as Hlater.
      destruct (calculate_file_hash E p "sha256" (HASH_CHUNK_SIZE cfg) (advance w))
        as [h w1] eqn:Hh.
      cbn [fst snd] in Hnone, Hlater. subst h.
      rewrite (run_bind_val _ _ _ _ _ Hh). cbn [truthy].
      assert (Hsleep : (if attempt <? max_retries - 1
                        then time_sleep ((1 # 2) * inject_Z (attempt + 1))
                        else ret tt) w1 = (Val tt, w1)).
      { destruct (Z.ltb_spec attempt (max_retries - 1));
          [apply sleep_backoff; lia | reflexivity]. }
      rewrite (run_bind_val _ _ _ _ _ Hsleep).
      apply IH; [lia |]. intros w0 Ht. apply Hfail. simpl in Hlater. lia.
    + rewrite (retry_loop_absent _ _ _ _ _ Hp).
      apply IH; [lia |]. intros w0 Ht. apply Hfail. simpl in Ht. lia.
Qed.

Lemma retry_loop_never_present n attempt p max_retries w :
  (forall t, (tick w <= t)%nat -> present_at E t p = false) ->
  exists w',
    retry_loop E cfg n attempt p max_retries w = (Val (None, false), w') /\
    calls w' = calls w /\ manifest w' = manifest w /\ self w' = self w /\
    tick w' = (tick w + n)%nat.
Proof.
  revert attempt w. induction n as [| n IH]; intros attempt w Hp.
  - exists w. simpl. repeat split; auto.
  - rewrite (retry_loop_absent _ _ _ _ _ (Hp _ (le_n _))).
    destruct (IH (attempt + 1) (advance w)) as (w' & Hr & Hc & Hm & Hs & Ht).
    { intros t Ht. apply Hp. simpl in Ht. lia. }
    exists w'. simpl in *. repeat split; auto. lia.
Qed.

(** C5.  In [calculate_file_hash_with_retry], for every [max_retries]
    whose back-off sleeps [time.sleep] accepts (up to [backoff_limit], some
    eighteen thousand million),
    - an attempt on which the path does not exist uses up one of the
      attempts and does not invoke the hasher;
    - the call never raises; it returns either [(None, False)] or a
      non-empty digest with [True], and invokes the hasher at most
      [max_retries] times;
    - when the path is missing on every attempt, all [max_retries]
      attempts are spent without a single hasher invocation and the result
      is [(None, False)];
    - when every attempt fails, the path being missing or the hasher
      returning [None], the result is [(None, False)]. *)
Theorem calculate_file_hash_with_retry_exhausted (p : string) (max_retries : Z)
    (w : world) :
  max_retries <= backoff_limit ->
  (forall n attempt w0,
     present_at E (tick w0) p = false ->
     retry_loop E cfg (S n) attempt p max_retries w0 =
     retry_loop E cfg n (attempt + 1) p max_retries (advance w0)) /\
  (exists r w' k,
     calculate_file_hash_with_retry E cfg p max_retries w = (Val r, w') /\
     (r = (None, false) \/ exists d, r = (Some d, true) /\ d <> ""%string) /\
     calls w' = calls w ++ repeat (CallHasher p) k /\
     (k <= Z.to_nat max_retries)%nat) /\
  ((forall t, (tick w <= t)%nat -> present_at E t p = false) ->
   exists w',
     calculate_file_hash_with_retry E cfg p max_retries w = (Val (None, false), w') /\
     calls w' = calls w /\
     tick w' = (tick w + Z.to_nat max_retries)%nat) /\
  ((forall w0, (tick w <= tick w0)%nat ->
      present_at E (tick w0) p = false \/
      fst (calculate_file_hash E p "sha256" (HASH_CHUNK_SIZE cfg) (advance w0)) = Val None) ->
   exists w',
     calculate_file_hash_with_retry E cfg p max_retries w = (Val (None, false), w')).
Proof.
  intros Hmax. split; [| split; [| split]].
  - intros n attempt w0. apply retry_loop_absent.
  - unfold calculate_file_hash_with_retry. apply retry_loop_result; [lia | exact Hmax].
  - intros Hp. unfold calculate_file_hash_with_retry.
    destruct (retry_loop_never_present (Z.to_nat max_retries) 0 p max_retries w Hp)
      as (w' & Hr & Hc & _ & _ & Ht).
    exists w'. auto.
  - intros Hfail. unfold calculate_file_hash_with_retry.
    apply retry_loop_all_fail; [lia | exact Hmax | exact Hfail].
Qed.

Lemma calculate_file_hash_with_retry_total p max_retries :
  max_retries <= backoff_limit ->
  total (calculate_file_hash_with_retry E cfg p max_retries).
Proof.
  intros Hmax w. unfold calculate_file_hash_with_retry.
  destruct (retry_loop_result (Z.to_nat max_retries) 0 p max_retries w)
    as (r & w' & _ & Hr & _); [lia | exact Hmax |].
  by exists r, w'.
Qed.
End Retry.

Lemma calculate_file_hash_with_retry_exhausted_witness :
  (retry_loop bare_env default_config 3 0 "/monitored/gone.txt" 3 new_world =
     retry_loop bare_env default_config 2 1 "/monitored/gone.txt" 3 (advance new_world) /\
   exists w',
     calculate_file_hash_with_retry bare_env default_config "/monitored/gone.txt" 3
       new_world = (Val (None, false), w') /\
     calls w' = calls new_world /\
     tick w' = (tick new_world + Z.to_nat 3)%nat) /\
  exists w',
    calculate_file_hash_with_retry unreadable_env default_config "/monitored/secret.txt" 3
      new_world = (Val (None, false), w').
Proof.
  split.
  - destruct (calculate_file_hash_with_retry_exhausted bare_env default_config
                "/monitored/gone.txt" 3 new_world) as (Hstep & _ & Hall & _);
      [by vm_compute |].
    split.
    + apply (Hstep 2%nat 0 new_world). reflexivity.
    + apply Hall. intros t _. reflexivity.
  - destruct (calculate_file_hash_with_retry_exhausted unreadable_env default_config
                "/monitored/secret.txt" 3 new_world) as (_ & _ & _ & Hfail);
      [by vm_compute |].
    apply Hfail. intros w0 _. right. reflexivity.
Defined.

(** [test_hash_permission_denied]-like: three attempts on a file that may
    not be read, three hasher invocations, no digest. *)
Example calculate_file_hash_with_retry_unreadable :
  let r := calculate_file_hash_with_retry unreadable_env default_config
             "/monitored/secret.txt" 3 new_world in
  fst r = Val (None, false) /\
  calls (snd r) = repeat (CallHasher "/monitored/secret.txt") 3.
Proof. vm_compute. split; reflexivity. Qed.

(** Why [max_retries] is bounded: when attempt 18446744073 fails and is not
    the last one, the back-off sleep is refused and the call raises. *)
Example retry_loop_backoff_refused :
  fst (retry_loop unreadable_env default_config 1 18446744073 "/monitored/secret.txt"
         18446744080 new_world) = Raise OverflowError.
Proof. vm_compute. reflexivity. Qed.

(** ** Integrity verification *)

Section Verify.
Variable E : env.
Variable cfg : config.

(** C6.  [verify_file_integrity] never raises, and it returns [True]
    exactly when the hasher produced a digest whose lower-cased form equals
    the lower-cased expected digest.  When the hasher returns [None] the
    answer is the same [False] a mismatch gives. *)
Theorem verify_file_integrity_iff (p expected_hash : string) (w : world) :
  exists b w',
    verify_file_integrity E cfg p expected_hash w = (Val b, w') /\
    (b = true <->
     exists d,
       fst (calculate_file_hash E p "sha256" (HASH_CHUNK_SIZE cfg) w) = Val (Some d) /\
       lower d = lower expected_hash) /\
    (fst (calculate_file_hash E p "sha256" (HASH_CHUNK_SIZE cfg) w) = Val None ->
     b = false).
Proof.
  destruct (calculate_file_hash_total E p "sha256" (HASH_CHUNK_SIZE cfg) w)
    as (o & w1 & Hh).
  unfold verify_file_integrity. rewrite (run_bind_val _ _ _ _ _ Hh). rewrite Hh.
  cbn [fst]. destruct o as [d |].
  - exists (String.eqb (lower d) (lower expected_hash)), w1.
    split; [reflexivity |]. split; [| discriminate].
    rewrite String.eqb_eq. split.
    + intros Heq. by exists d.
    + intros (d' & Hd' & Heq). by injection Hd' as ->.
  - exists false, w1. split; [reflexivity |]. split; [| done].
    split; [discriminate |]. by intros (d' & Hd' & _).
Qed.
End Verify.

Lemma verify_file_integrity_iff_witness :
  fst (verify_file_integrity abc_env default_config "/monitored/abc.txt"
         "BA7816BF8F01CFEA414140DE5DAE2223B00361A396177A9CB410FF61F20015AD" new_world)
  = Val true.
Proof.
  destruct (verify_file_integrity_iff abc_env default_config "/monitored/abc.txt"
              "BA7816BF8F01CFEA414140DE5DAE2223B00361A396177A9CB410FF61F20015AD"
              new_world) as (b & w' & Hrun & Hiff & _).
  rewrite Hrun. cbn [fst]. f_equal. apply Hiff.
  exists "ba7816bf8f01cfea414140de5dae2223b00361a396177a9cb410ff61f20015ad"%string.
  split; vm_compute; reflexivity.
Defined.

Example lower_ignores_case : lower "E3B0c442" = lower "e3b0C442".
Proof. reflexivity. Qed.

(** [test_verify_integrity_pass], with the expected digest in upper case. *)
Example verify_file_integrity_upper_case :
  fst (verify_file_integrity abc_env default_config "/monitored/abc.txt"
         "BA7816BF8F01CFEA414140DE5DAE2223B00361A396177A9CB410FF61F20015AD" new_world)
  = Val true.
Proof. vm_compute. reflexivity. Qed.

(** A wrong digest and a missing file give the same answer. *)
Example verify_file_integrity_mismatch_or_failure :
  fst (verify_file_integrity abc_env default_config "/monitored/abc.txt"
         "00" new_world) = Val false /\
  fst (verify_file_integrity bare_env default_config "/monitored/abc.txt"
         "ba7816bf8f01cfea414140de5dae2223b00361a396177a9cb410ff61f20015ad" new_world)
  = Val false.
Proof. vm_compute. split; reflexivity. Qed.

(** ** Manifest *)

Section Manifest.
Variable E : env.

Lemma run_log_hash_to_manifest p h k w :
  let w0 := logged (CallManifest p h k) w in
  let entry := manifest_entry (stamp_at E (S (tick w))) k h (path_name p) in
  log_hash_to_manifest E p h k w =
    match fault_at E (tick w) with
    | Some e => (Raise e, advance w0)
    | None =>
        match fault_at E (S (S (tick w))) with
        | None => (Val tt, pushed entry (advance (advance (advance w0))))
        | Some PermissionError => (Val tt, advance (advance (advance w0)))
        | Some e => (Raise e, advance (advance (advance w0)))
        end
    end.
Proof.
  unfold log_hash_to_manifest, mkdir_parents, now_isoformat, append_manifest,
    catch, bind, record_call, next_tick. cbn [tick logged advance].
  destruct (fault_at E (tick w)) as [e |]; [reflexivity |].
  cbn [ret tick advance].
  destruct (fault_at E (S (S (tick w)))) as [[] |]; reflexivity.
Qed.

Lemma list_ascii_of_string_app a b :
  list_ascii_of_string (a +:+ b) = list_ascii_of_string a ++ list_ascii_of_string b.
Proof. induction a as [| c a IH]; simpl; [done | by rewrite IH]. Qed.

Lemma has_slash_app a b : has_slash (a +:+ b) = has_slash a || has_slash b.
Proof. unfold has_slash. by rewrite list_ascii_of_string_app, existsb_app. Qed.

Lemma components_no_slash s cur :
  has_slash cur = false ->
  List.Forall (fun c => has_slash c = false) (components s cur).
Proof.
  revert cur. induction s as [| c rest IH]; intros cur Hcur; simpl.
  - by repeat constructor.
  - destruct (Ascii.eqb c "/") eqn:Hc.
    + constructor; [exact Hcur | by apply IH].
    + apply IH. rewrite has_slash_app, Hcur. unfold has_slash. simpl.
      by rewrite Hc.
Qed.

Lemma last_Forall {A} (P : A -> Prop) (l : list A) (d : A) :
  List.Forall P l -> P d -> P (List.last l d).
Proof.
  intros Hl Hd. induction Hl as [| x l Hx Hl IH]; [exact Hd |].
  destruct l; [exact Hx | exact IH].
Qed.

(** [Path(filepath).name] is a single component: it holds no slash. *)
Lemma path_name_no_slash p : has_slash (path_name p) = false.
Proof.
  unfold path_name. apply (last_Forall (fun c => has_slash c = false)); [| reflexivity].
  apply List.Forall_forall. intros c Hc. apply List.filter_In in Hc as [Hc _].
  pose proof (components_no_slash p "" eq_refl) as Hall.
  rewrite List.Forall_forall in Hall. by apply Hall.
Qed.

Lemma length_string_of_list_ascii l :
  String.length (string_of_list_ascii l) = length l.
Proof. induction l as [| c l IH]; simpl; [done | by rewrite IH]. Qed.

Lemma length_append a b :
  String.length (a +:+ b) = (String.length a + String.length b)%nat.
Proof. induction a as [| c a IH]; simpl; [done | by rewrite IH]. Qed.

Lemma format_width_length width s :
  String.length (format_width width s) = Nat.max width (String.length s).
Proof.
  unfold format_width. rewrite length_append, length_string_of_list_ascii, repeat_length.
  lia.
Qed.

(** C7, as the code has it.  The only line [log_hash_to_manifest] can add
    to the manifest is
    [<timestamp> | <event kind> | <digest or N/A> | <base name>] closed by a
    newline, and it adds it whenever creating the directory and appending
    succeed.  The event kind comes first in its field and the blanks that
    fill the field up to twelve characters follow it; a longer event kind
    is written in full.  The file name is the last component of the path
    and holds no slash. *)
Theorem log_hash_to_manifest_line (p h k : string) (w : world) :
  let w' := snd (log_hash_to_manifest E p h k w) in
  let timestamp := stamp_at E (S (tick w)) in
  let field := k +:+ string_of_list_ascii (repeat " "%char (12 - String.length k)) in
  let entry :=
    timestamp +:+ " | " +:+ field +:+ " | " +:+ h +:+ " | " +:+ path_name p +:+ newline in
  (manifest w' = manifest w \/ manifest w' = manifest w ++ [entry]) /\
  (fault_at E (tick w) = None -> fault_at E (S (S (tick w))) = None ->
   manifest w' = manifest w ++ [entry]) /\
  String.length field = Nat.max 12 (String.length k) /\
  has_slash (path_name p) = false.
Proof.
  cbv zeta. rewrite run_log_hash_to_manifest. cbv zeta.
  split; [| split; [| split]].
  - destruct (fault_at E (tick w)) as [e |]; [by left |].
    destruct (fault_at E (S (S (tick w)))) as [[] |]; (by left) || (by right).
  - intros -> ->. reflexivity.
  - apply (format_width_length 12 k).
  - apply path_name_no_slash.
Qed.
End Manifest.

Lemma log_hash_to_manifest_line_witness :
  manifest (snd (log_hash_to_manifest bare_env "/test/path/file.txt" "abc123def456"
                   "CREATED" new_world))
  = ["2024-01-01T00:00:00+00:00 | CREATED      | abc123def456 | file.txt" +:+ newline].
Proof.
  destruct (log_hash_to_manifest_line bare_env "/test/path/file.txt" "abc123def456"
              "CREATED" new_world) as (_ & Hwritten & _).
  apply Hwritten; reflexivity.
Defined.

(** The line written for [test_manifest_log_format] is not the one with
    the event kind padded on the left. *)
Lemma log_hash_to_manifest_not_left_padded :
  manifest (snd (log_hash_to_manifest bare_env "/test/path/file.txt" "abc123def456"
                   "CREATED" new_world))
  <> [spec_manifest_line (stamp_at bare_env 1) "CREATED" "abc123def456" "file.txt"].
Proof. vm_compute. discriminate. Qed.

Example path_name_examples :
  path_name "/test/path/file.txt" = "file.txt"%string /\
  path_name "monitored/sub/" = "sub"%string /\
  path_name "a/./b/." = "b"%string /\
  path_name "/" = ""%string /\
  path_name "plain" = "plain"%string.
Proof. vm_compute. repeat split. Qed.

Example format_width_examples :
  format_width 12 "DELETED" = "DELETED     "%string /\
  format_width 12 "DOWNLOADED" = "DOWNLOADED  "%string /\
  format_width 12 "ATTRIBUTES_CHANGED" = "ATTRIBUTES_CHANGED"%string.
Proof. vm_compute. repeat split. Qed.

(** ** Event router *)

Section Router.
Variable E : env.
Variable cfg : config.

(** C8.  A deletion notification for a file invokes the manifest exactly
    once, with the sentinel ["N/A"] and the event kind [DELETED], and
    invokes neither the stability gate nor the hasher.  The handler never
    raises, leaves the lock and debounce tables alone and behaves the same
    whatever they hold.  The only line it can add to the manifest is the
    sentinel line, and it adds it whenever creating the directory and
    appending succeed. *)
Theorem on_deleted_logs_sentinel (event : FileSystemEvent) (w : world) :
  is_directory event = false ->
  let p := src_path event in
  let r := on_deleted E event w in
  let entry := manifest_entry (stamp_at E (S (tick w))) "DELETED" "N/A" (path_name p) in
  fst r = Val tt /\
  calls (snd r) = calls w ++ [CallManifest p "N/A" "DELETED"] /\
  self (snd r) = self w /\
  (manifest (snd r) = manifest w \/ manifest (snd r) = manifest w ++ [entry]) /\
  (fault_at E (tick w) = None -> fault_at E (S (S (tick w))) = None ->
   manifest (snd r) = manifest w ++ [entry]) /\
  (forall h : handler,
     on_deleted E event (World (tick w) h (manifest w) (calls w)) =
     (Val tt, World (tick (snd r)) h (manifest (snd r)) (calls (snd r)))).
Proof.
  intros Hdir. cbv zeta. unfold on_deleted. rewrite Hdir. unfold catch.
  split; [| split; [| split; [| split; [| split]]]].
  - rewrite run_log_hash_to_manifest. cbv zeta.
    destruct (fault_at E (tick w)) as [e |]; [reflexivity |].
    destruct (fault_at E (S (S (tick w)))) as [[] |]; reflexivity.
  - rewrite run_log_hash_to_manifest. cbv zeta.
    destruct (fault_at E (tick w)) as [e |]; [reflexivity |].
    destruct (fault_at E (S (S (tick w)))) as [[] |]; reflexivity.
  - rewrite run_log_hash_to_manifest. cbv zeta.
    destruct (fault_at E (tick w)) as [e |]; [reflexivity |].
    destruct (fault_at E (S (S (tick w)))) as [[] |]; reflexivity.
  - rewrite run_log_hash_to_manifest. cbv zeta.
    destruct (fault_at E (tick w)) as [e |]; [by left |].
    destruct (fault_at E (S (S (tick w)))) as [[] |]; (by left) || (by right).
  - intros H0 H2. rewrite run_log_hash_to_manifest. cbv zeta. by rewrite H0, H2.
  - intros h. rewrite !run_log_hash_to_manifest. cbv zeta. cbn [tick].
    destruct (fault_at E (tick w)) as [e |]; [reflexivity |].
    destruct (fault_at E (S (S (tick w)))) as [[] |]; reflexivity.
Qed.
End Router.

Lemma on_deleted_logs_sentinel_witness :
  fst (on_deleted bare_env (Event false "/monitored/report.pdf") new_world) = Val tt /\
  calls (snd (on_deleted bare_env (Event false "/monitored/report.pdf") new_world))
    = [CallManifest "/monitored/report.pdf" "N/A" "DELETED"] /\
  manifest (snd (on_deleted bare_env (Event false "/monitored/report.pdf") new_world))
    = ["2024-01-01T00:00:00+00:00 | DELETED      | N/A | report.pdf" +:+ newline].
Proof.
  destruct (on_deleted_logs_sentinel bare_env (Event false "/monitored/report.pdf")
              new_world eq_refl) as (Hval & Hcalls & _ & _ & Hwritten & _).
  split; [exact Hval |]. split; [exact Hcalls |].
  apply Hwritten; reflexivity.
Defined.

(** ** Path coordinator *)

Lemma count_stability_app a b :
  count_stability (a ++ b) = (count_stability a + count_stability b)%nat.
Proof. unfold count_stability. by rewrite List.filter_app, length_app. Qed.

Lemma count_process_app a b :
  count_process (a ++ b) = (count_process a + count_process b)%nat.
Proof. unfold count_process. by rewrite List.filter_app, length_app. Qed.

Lemma count_leaves d :
  Forall (fun c => is_leaf c = true) d -> count_stability d = 0%nat /\ count_process d = 0%nat.
Proof.
  induction 1 as [| c d Hc _ [IH1 IH2]]; [done |].
  unfold count_stability, count_process in *. by destruct c; simpl in *.
Qed.

Section Coordinator.
Variable E : env.
Variable cfg : config.

Lemma run__is_file_locked p w :
  _is_file_locked p w = (Val (locked_in (self w) p), w).
Proof. reflexivity. Qed.

Lemma run__set_processing p state w :
  _set_processing p state w = (Val tt, with_self (set_lock p state (self w)) w).
Proof. reflexivity. Qed.

Lemma run_time_time w : time_time E w = (Val (time_at E (tick w)), advance w).
Proof. reflexivity. Qed.

(** Whatever the guarded block does, and whether it returns or raises, the
    [finally] clause leaves the flag of the path cleared. *)
Lemma finally_releases {A} (m : M A) p w :
  _processing_lock (self (snd (finally m (_set_processing p false) w))) !! p = Some false.
Proof.
  unfold finally. destruct (m w) as [r w1]. rewrite run__set_processing.
  simpl. apply lookup_insert_eq.
Qed.

Lemma finally_total {A} (m : M A) p : total m -> total (finally m (_set_processing p false)).
Proof. intros Hm. apply total_finally; [exact Hm |]. intros w. by eexists _, _. Qed.

(** The stability gate: one entry in the call log, nothing else touched. *)
Lemma wait_for_file_stability_effect p checks interval w :
  exists stable w1,
    wait_for_file_stability E p checks interval w = (Val stable, w1) /\
    self w1 = self w /\ manifest w1 = manifest w /\
    calls w1 = calls w ++ [CallStability p].
Proof.
  destruct (wait_for_file_stability_total E p checks interval w) as (stable & w1 & Hr).
  exists stable, w1. split; [exact Hr |].
  assert (Hs : keeps same_self (wait_for_file_stability E p checks interval)).
  { apply (keeps_wait_for_file_stability same_self (fun _ => True)); auto with keeps. }
  assert (Hm : keeps same_manifest (wait_for_file_stability E p checks interval)).
  { apply (keeps_wait_for_file_stability same_manifest (fun _ => True)); auto with keeps. }
  specialize (Hs w). specialize (Hm w). rewrite Hr in Hs, Hm.
  split; [exact Hs |]. split; [exact Hm |].
  revert Hr. unfold wait_for_file_stability.
  rewrite (run_bind_val _ _ _ _ _ (run_record_call _ w)).
  match goal with
  | |- ?m ?w0 = _ -> _ =>
      assert (Hc : keeps same_calls m) by keeps_auto; specialize (Hc w0)
  end.
  intros Hr. rewrite Hr in Hc. exact Hc.
Qed.

(** The hash-and-log sequence: never raises, leaves the handler alone, and
    logs itself followed by hasher and manifest invocations only. *)
Lemma _process_file_safe_effect p k w :
  exists w2 d,
    _process_file_safe E cfg p k w = (Val tt, w2) /\
    self w2 = self w /\
    calls w2 = calls w ++ CallProcess p k :: d /\
    Forall (fun c => is_leaf c = true) d.
Proof.
  assert (Hs : keeps same_self (_process_file_safe E cfg p k)).
  { apply (keeps_process_file_safe same_self (fun _ => True)); auto with keeps. }
  specialize (Hs w). revert Hs. unfold _process_file_safe.
  rewrite (run_bind_val _ _ _ _ _ (run_record_call _ w)).
  match goal with
  | |- same_self _ (snd (?m ?w0)) -> _ =>
      assert (Hc : keeps (more_calls (fun c => is_leaf c = true)) m);
        [| specialize (Hc w0);
           assert (Ht : total m) by (apply total_catch; intros _; apply total_ret);
           destruct (Ht w0) as ([] & w2 & Hr) ]
  end.
  { apply (keeps_process_body _ (fun c => is_leaf c = true)); auto with keeps.
    intros c Hc. by apply record_call_more_calls. }
  rewrite Hr in Hc |- *. intros Hs. destruct Hc as (d & Hd & Hleaf).
  exists w2, d. split; [reflexivity |]. split; [exact Hs |]. split; [| exact Hleaf].
  simpl in Hd. rewrite Hd. by rewrite <- app_assoc.
Qed.

(** The guarded block of [on_created] and [on_modified]: [no] is its
    value when the stability gate says no, [yes] its value after the
    hash-and-log sequence. *)
Lemma pass_effect {A} (p k : string) (no yes : A) w :
  let pass := stable <- wait_for_file_stability E p (FILE_STABILITY_CHECKS cfg)
                          (FILE_STABILITY_INTERVAL cfg) ;;
              if negb stable then ret no
              else _process_file_safe E cfg p k ;;; ret yes in
  exists stable w1 w' d,
    wait_for_file_stability E p (FILE_STABILITY_CHECKS cfg)
      (FILE_STABILITY_INTERVAL cfg) w = (Val stable, w1) /\
    pass w = (Val (if stable then yes else no), w') /\
    self w' = self w /\
    calls w' = calls w ++ CallStability p :: d /\
    count_stability d = 0%nat /\
    count_process d = (if stable then 1 else 0)%nat /\
    (stable = false -> d = [] /\ manifest w' = manifest w).
Proof.
  cbv zeta.
  destruct (wait_for_file_stability_effect p (FILE_STABILITY_CHECKS cfg)
              (FILE_STABILITY_INTERVAL cfg) w) as (stable & w1 & Hr & Hs & Hm & Hc).
  rewrite (run_bind_val _ _ _ _ _ Hr). destruct stable; cbn [negb].
  - destruct (_process_file_safe_effect p k w1) as (w2 & d & Hp & Hs2 & Hc2 & Hleaf).
    rewrite (run_bind_val _ _ _ _ _ Hp).
    exists true, w1, w2, (CallProcess p k :: d).
    destruct (count_leaves d Hleaf) as [Hn1 Hn2].
    split; [exact Hr |]. split; [reflexivity |]. split; [congruence |].
    split; [rewrite Hc2, Hc; by rewrite <- app_assoc |].
    split; [exact Hn1 |]. split; [| discriminate].
    unfold count_process in *. simpl. by rewrite Hn2.
  - exists false, w1, w1, []. repeat split; auto.
Qed.

Lemma bind_ret_unit (m : M unit) w : bind m (fun _ => ret tt) w = m w.
Proof. unfold bind. by destruct (m w) as [[[] | e] w1]. Qed.

Lemma created_pass_effect p w :
  exists stable w1 w' d,
    wait_for_file_stability E p (FILE_STABILITY_CHECKS cfg)
      (FILE_STABILITY_INTERVAL cfg) w = (Val stable, w1) /\
    created_pass E cfg p w = (Val tt, w') /\
    self w' = self w /\
    calls w' = calls w ++ CallStability p :: d /\
    count_stability d = 0%nat /\
    count_process d = (if stable then 1 else 0)%nat /\
    (stable = false -> d = [] /\ manifest w' = manifest w).
Proof.
  destruct (pass_effect p "CREATED" tt tt w)
    as (stable & w1 & w' & d & Hr & Hp & Hrest).
  exists stable, w1, w', d. split; [exact Hr |]. split; [| exact Hrest].
  unfold created_pass. rewrite (run_bind_val _ _ _ _ _ Hr).
  rewrite (run_bind_val _ _ _ _ _ Hr) in Hp.
  destruct stable; cbn [negb] in *; [| exact Hp].
  by rewrite bind_ret_unit in Hp.
Qed.

Lemma cleanup_last_modified_effect now w :
  exists h',
    cleanup_last_modified now w = (Val tt, with_self h' w) /\
    _processing_lock h' = _processing_lock (self w) /\
    (forall p v, _last_modified (self w) !! p = Some v -> (now - 60 < v)%Q ->
                 _last_modified h' !! p = Some v).
Proof.
  unfold cleanup_last_modified, bind, get_self.
  destruct (1000 <? size (_last_modified (self w)))%nat.
  - eexists. split; [reflexivity |]. split; [reflexivity |].
    intros p v Hp Hv. cbn [_last_modified]. by apply map_lookup_filter_Some_2.
  - exists (self w). split; [by destruct w |]. split; [reflexivity | auto].
Qed.

(** A notification inside the debounce window: nothing happens. *)
Lemma on_modified_dropped event w :
  is_directory event = false ->
  (time_at E (tick w)
     - default 0%Q (_last_modified (self w) !! src_path event) < 1)%Q ->
  on_modified E cfg event w = (Val tt, advance w).
Proof.
  intros Hdir Hin. unfold on_modified. rewrite Hdir.
  rewrite (run_bind_val _ _ _ _ _ (run_time_time w)).
  unfold bind at 1, get_self. cbn [self advance].
  by destruct (decide _).
Qed.

(** A notification past the window for a path that is being processed:
    the time stamp is stored and the handler returns. *)
Lemma on_modified_locked event w :
  is_directory event = false ->
  ~ (time_at E (tick w)
       - default 0%Q (_last_modified (self w) !! src_path event) < 1)%Q ->
  locked_in (self w) (src_path event) = true ->
  on_modified E cfg event w =
    (Val tt, with_self (set_time (src_path event) (time_at E (tick w)) (self w))
                       (advance w)).
Proof.
  intros Hdir Hout Hlock. unfold on_modified. rewrite Hdir.
  rewrite (run_bind_val _ _ _ _ _ (run_time_time w)).
  unfold bind at 1, get_self. cbn [self advance].
  destruct (decide _) as [Hin | _]; [done |].
  unfold bind at 1, put_self. cbn [tick self manifest calls].
  rewrite (run_bind_val _ _ _ _ _ (run__is_file_locked _ _)).
  cbn [self]. unfold locked_in in *. cbn [_processing_lock]. by rewrite Hlock.
Qed.

(** A notification past the window for a path that is not being
    processed: one pass. *)
Lemma on_modified_admitted event w :
  is_directory event = false ->
  ~ (time_at E (tick w)
       - default 0%Q (_last_modified (self w) !! src_path event) < 1)%Q ->
  locked_in (self w) (src_path event) = false ->
  let p := src_path event in
  let now := time_at E (tick w) in
  exists stable w1 w' d,
    wait_for_file_stability E p (FILE_STABILITY_CHECKS cfg)
      (FILE_STABILITY_INTERVAL cfg)
      (with_self (set_lock p true (set_time p now (self w))) (advance w))
      = (Val stable, w1) /\
    on_modified E cfg event w = (Val tt, w') /\
    _processing_lock (self w') !! p = Some false /\
    _last_modified (self w') !! p = Some now /\
    calls w' = calls w ++ CallStability p :: d /\
    count_stability d = 0%nat /\
    count_process d = (if stable then 1 else 0)%nat /\
    (stable = false -> d = [] /\ manifest w' = manifest w).
Proof.
  intros Hdir Hout Hlock. cbv zeta.
  set (p := src_path event). set (now := time_at E (tick w)).
  set (wb := with_self (set_lock p true (set_time p now (self w))) (advance w)).
  destruct (pass_effect p "MODIFIED" false true wb)
    as (stable & w1 & wc & d & Hr & Hp & Hs & Hc & Hn1 & Hn2 & Hno).
  destruct (cleanup_last_modified_effect now
              (with_self (set_lock p false (self wc)) wc)) as (h' & Hcl & Hl & Hk).
  exists stable, w1,
    (if stable then with_self h' (with_self (set_lock p false (self wc)) wc)
     else with_self (set_lock p false (self wc)) wc), d.
  split; [exact Hr |].
  assert (Hrun :
    on_modified E cfg event w =
    (Val tt, if stable then with_self h' (with_self (set_lock p false (self wc)) wc)
             else with_self (set_lock p false (self wc)) wc)).
  { unfold on_modified. rewrite Hdir.
    rewrite (run_bind_val _ _ _ _ _ (run_time_time w)).
    unfold bind at 1, get_self. cbn [self advance]. fold p. fold now.
    destruct (decide _) as [Hin | _]; [done |].
    unfold bind at 1, put_self. cbn [tick self manifest calls].
    rewrite (run_bind_val _ _ _ _ _ (run__is_file_locked _ _)).
    cbn [self]. unfold locked_in in Hlock |- *. cbn [_processing_lock].
    fold p in Hlock. rewrite Hlock.
    rewrite (run_bind_val _ _ _ _ _ (run__set_processing _ _ _)).
    match goal with
    | |- bind ?m ?k _ = ?rhs => change (bind m k wb = rhs)
    end.
    assert (Hfin : finally (modified_pass E cfg p) (_set_processing p false) wb =
                   (Val (if stable then true else false),
                    with_self (set_lock p false (self wc)) wc)).
    { unfold finally, modified_pass. rewrite Hp. by rewrite run__set_processing. }
    rewrite (run_bind_val _ _ _ _ _ Hfin).
    destruct stable; [exact Hcl | reflexivity]. }
  split; [exact Hrun |].
  assert (Hlm : _last_modified (self wc) !! p = Some now).
  { rewrite Hs. unfold wb. simpl. apply lookup_insert_eq. }
  split; [| split; [| split; [| split; [exact Hn1 | split; [exact Hn2 |]]]]].
  - destruct stable; simpl; [rewrite Hl; simpl |]; apply lookup_insert_eq.
  - destruct stable; simpl; [| exact Hlm].
    apply Hk; [exact Hlm |]. lra.
  - destruct stable; simpl; rewrite Hc; reflexivity.
  - intros ->. destruct (Hno eq_refl) as [-> Hm]. split; [reflexivity |].
    simpl. rewrite Hm. reflexivity.
Qed.
End Coordinator.

Section Handlers.
Variable E : env.
Variable cfg : config.

(** A creation notification for a path that is not being processed: one
    pass, and the flag is cleared at the end. *)
Lemma on_created_admitted event w :
  is_directory event = false ->
  locked_in (self w) (src_path event) = false ->
  let p := src_path event in
  let w1 := snd (_set_processing p true w) in
  exists stable w_gate w' d,
    wait_for_file_stability E p (FILE_STABILITY_CHECKS cfg)
      (FILE_STABILITY_INTERVAL cfg) w1 = (Val stable, w_gate) /\
    finally (created_pass E cfg p) (_set_processing p false) w1 = (Val tt, w') /\
    on_created E cfg event w = (Val tt, w') /\
    _processing_lock (self w') !! p = Some false /\
    calls w' = calls w ++ CallStability p :: d /\
    count_stability d = 0%nat /\
    count_process d = (if stable then 1 else 0)%nat /\
    (stable = false -> d = [] /\ manifest w' = manifest w).
Proof.
  intros Hdir Hlock. cbv zeta. set (p := src_path event) in *.
  rewrite run__set_processing. cbn [snd].
  set (w1 := with_self (set_lock p true (self w)) w).
  destruct (created_pass_effect E cfg p w1)
    as (stable & w_gate & wc & d & Hr & Hp & Hs & Hc & Hn1 & Hn2 & Hno).
  assert (Hfin : finally (created_pass E cfg p) (_set_processing p false) w1 =
                 (Val tt, with_self (set_lock p false (self wc)) wc)).
  { unfold finally. rewrite Hp. by rewrite run__set_processing. }
  exists stable, w_gate, (with_self (set_lock p false (self wc)) wc), d.
  split; [exact Hr |]. split; [exact Hfin |]. split.
  { unfold on_created. rewrite Hdir.
    rewrite (run_bind_val _ _ _ _ _ (run__is_file_locked _ _)).
    fold p. rewrite Hlock.
    rewrite (run_bind_val _ _ _ _ _ (run__set_processing _ _ _)). exact Hfin. }
  split; [simpl; apply lookup_insert_eq |].
  split; [exact Hc |]. split; [exact Hn1 |]. split; [exact Hn2 |].
  intros Hst. destruct (Hno Hst) as [-> Hm]. split; [reflexivity | exact Hm].
Qed.

(** C2.  While the processing flag of a path is set, a creation
    notification for it returns at once and leaves the whole world as it
    was: no stability wait, no hashing, no manifest line.  So when a first
    notification has been admitted (flag set, pass not yet run) and a
    second one arrives, the two together do exactly what the first does
    alone: the stability gate is entered once, and the hash-and-log
    sequence runs once when the gate answers [True] (and not at all
    otherwise). *)
Theorem on_created_skips_locked_path (event : FileSystemEvent) (w : world) :
  is_directory event = false ->
  let p := src_path event in
  (_processing_lock (self w) !! p = Some true ->
   on_created E cfg event w = (Val tt, w)) /\
  (locked_in (self w) p = false ->
   let w1 := snd (_set_processing p true w) in
   on_created E cfg event w1 = (Val tt, w1) /\
   exists stable w_gate w2 d,
     wait_for_file_stability E p (FILE_STABILITY_CHECKS cfg)
       (FILE_STABILITY_INTERVAL cfg) w1 = (Val stable, w_gate) /\
     finally (created_pass E cfg p) (_set_processing p false) w1 = (Val tt, w2) /\
     on_created E cfg event w = (Val tt, w2) /\
     calls w2 = calls w ++ CallStability p :: d /\
     count_stability d = 0%nat /\
     count_process d = (if stable then 1 else 0)%nat).
Proof.
  intros Hdir. cbv zeta.
  assert (Hskip : forall w0,
    _processing_lock (self w0) !! src_path event = Some true ->
    on_created E cfg event w0 = (Val tt, w0)).
  { intros w0 Hl. unfold on_created. rewrite Hdir.
    rewrite (run_bind_val _ _ _ _ _ (run__is_file_locked _ _)).
    unfold locked_in. by rewrite Hl. }
  split; [apply Hskip |].
  intros Hfree. split.
  - apply Hskip. rewrite run__set_processing. simpl. apply lookup_insert_eq.
  - destruct (on_created_admitted event w Hdir Hfree)
      as (stable & w_gate & w' & d & Hr & Hfin & Hrun & _ & Hc & Hn1 & Hn2 & _).
    by exists stable, w_gate, w', d.
Qed.

(** C9.  An admitted creation or modification notification returns with
    the flag of its path cleared, whatever the stability gate, the hasher
    and the manifest did in between. *)
Theorem processing_flag_released (event : FileSystemEvent) (w : world) :
  is_directory event = false ->
  locked_in (self w) (src_path event) = false ->
  let p := src_path event in
  (fst (on_created E cfg event w) = Val tt /\
   _processing_lock (self (snd (on_created E cfg event w))) !! p = Some false) /\
  (~ (time_at E (tick w) - default 0%Q (_last_modified (self w) !! p) < 1)%Q ->
   fst (on_modified E cfg event w) = Val tt /\
   _processing_lock (self (snd (on_modified E cfg event w))) !! p = Some false).
Proof.
  intros Hdir Hfree. cbv zeta. split.
  - destruct (on_created_admitted event w Hdir Hfree)
      as (stable & w_gate & w' & d & _ & _ & Hrun & Hl & _).
    rewrite Hrun. by split.
  - intros Hout.
    destruct (on_modified_admitted E cfg event w Hdir Hout Hfree)
      as (stable & w1 & w' & d & _ & Hrun & Hl & _).
    rewrite Hrun. by split.
Qed.

(** Once the table holds a reading of the clock for the path, every
    notification of a burst is dropped. *)
Lemma notify_all_dropped n event w t0 :
  is_directory event = false -> burst E ->
  _last_modified (self w) !! src_path event = Some (time_at E t0) ->
  exists w', notify n (on_modified E cfg event) w = (Val tt, w') /\
             calls w' = calls w /\ manifest w' = manifest w.
Proof.
  intros Hdir Hb. revert w. induction n as [| n IH]; intros w Hl.
  - by exists w.
  - cbn [notify].
    assert (Hd : on_modified E cfg event w = (Val tt, advance w)).
    { apply on_modified_dropped; [exact Hdir |]. rewrite Hl. apply Hb. }
    rewrite (run_bind_val _ _ _ _ _ Hd).
    destruct (IH (advance w) Hl) as (w' & Hr & Hc & Hm). by exists w'.
Qed.

Lemma notify_one_pass n event w :
  is_directory event = false -> burst E ->
  exists w', notify n (on_modified E cfg event) w = (Val tt, w') /\
             (count_stability (calls w') <= count_stability (calls w) + 1)%nat /\
             (count_process (calls w') <= count_process (calls w) + 1)%nat.
Proof.
  intros Hdir Hb. revert w. induction n as [| n IH]; intros w.
  - exists w. split; [reflexivity | lia].
  - cbn [notify].
    destruct (decide (time_at E (tick w)
                - default 0%Q (_last_modified (self w) !! src_path event) < 1)%Q)
      as [Hin | Hout].
    + rewrite (run_bind_val _ _ _ _ _ (on_modified_dropped E cfg event w Hdir Hin)).
      destruct (IH (advance w)) as (w' & Hr & H1 & H2). by exists w'.
    + destruct (locked_in (self w) (src_path event)) eqn:Hlock.
      * rewrite (run_bind_val _ _ _ _ _ (on_modified_locked E cfg event w Hdir Hout Hlock)).
        destruct (notify_all_dropped n event
                    (with_self (set_time (src_path event) (time_at E (tick w)) (self w))
                               (advance w)) (tick w) Hdir Hb)
          as (w' & Hr & Hc & _); [simpl; apply lookup_insert_eq |].
        exists w'. split; [exact Hr |]. rewrite Hc. simpl. lia.
      * destruct (on_modified_admitted E cfg event w Hdir Hout Hlock)
          as (stable & w1 & wa & d & _ & Hrun & _ & Hlm & Hc & Hn1 & Hn2 & _).
        rewrite (run_bind_val _ _ _ _ _ Hrun).
        destruct (notify_all_dropped n event wa (tick w) Hdir Hb Hlm)
          as (w' & Hr & Hc' & _).
        exists w'. split; [exact Hr |]. rewrite Hc', Hc.
        rewrite count_stability_app, count_process_app.
        change (CallStability (src_path event) :: d)
          with ([CallStability (src_path event)] ++ d).
        rewrite count_stability_app, count_process_app, Hn1, Hn2.
        unfold count_stability, count_process. simpl. destruct stable; lia.
Qed.

(** C4.  A modification notification that arrives less than one second
    after the time stamp stored for its path is dropped: the handler
    returns with its tables, the manifest and the call log unchanged, only
    the clock has been read.  Five notifications in a row, with the clock
    moving by less than a second from the first to the last, start at most
    one processing pass, which is within the two the specification allows.
    The condition on the clock is needed: the handler runs the pass before
    it returns, and a pass that sleeps for a second or more puts the next
    notification past the window. *)
Theorem on_modified_debounced (event : FileSystemEvent) :
  is_directory event = false ->
  let p := src_path event in
  (forall w t,
     _last_modified (self w) !! p = Some t ->
     (time_at E (tick w) - t < 1)%Q ->
     on_modified E cfg event w = (Val tt, advance w)) /\
  (burst E ->
   forall w, exists w5,
     notify 5 (on_modified E cfg event) w = (Val tt, w5) /\
     (count_stability (calls w5) <= count_stability (calls w) + 1)%nat /\
     (count_process (calls w5) <= count_process (calls w) + 1)%nat /\
     (count_process (calls w5) <= count_process (calls w) + 2)%nat).
Proof.
  intros Hdir. cbv zeta. split.
  - intros w t Hl Hin. apply on_modified_dropped; [exact Hdir |]. by rewrite Hl.
  - intros Hb w. destruct (notify_one_pass 5 event w Hdir Hb) as (w5 & Hr & H1 & H2).
    exists w5. repeat split; auto. lia.
Qed.

(** C10.  [on_modified] stores the time stamp before it looks at the
    processing flag.  A notification that is past the window
    - but finds the flag set, only stores its time stamp;
    - or is admitted and fails the stability gate, stores its time stamp
      and enters the gate, and neither hashes nor writes to the manifest;
    and in the world either leaves behind, a further notification for the
    path less than a second later is dropped. *)
Theorem on_modified_stamp_before_lock (event : FileSystemEvent) (w : world) :
  is_directory event = false ->
  let p := src_path event in
  let now := time_at E (tick w) in
  ~ (now - default 0%Q (_last_modified (self w) !! p) < 1)%Q ->
  (locked_in (self w) p = true ->
   on_modified E cfg event w =
     (Val tt, with_self (set_time p now (self w)) (advance w))) /\
  (locked_in (self w) p = false ->
   fst (wait_for_file_stability E p (FILE_STABILITY_CHECKS cfg)
          (FILE_STABILITY_INTERVAL cfg)
          (with_self (set_lock p true (set_time p now (self w))) (advance w)))
     = Val false ->
   exists w',
     on_modified E cfg event w = (Val tt, w') /\
     _last_modified (self w') !! p = Some now /\
     calls w' = calls w ++ [CallStability p] /\
     manifest w' = manifest w) /\
  (forall w2,
     _last_modified (self w2) !! p = Some now ->
     (time_at E (tick w2) - now < 1)%Q ->
     on_modified E cfg event w2 = (Val tt, advance w2)).
Proof.
  intros Hdir. cbv zeta. intros Hout. split; [| split].
  - intros Hlock. by apply on_modified_locked.
  - intros Hfree Hgate.
    destruct (on_modified_admitted E cfg event w Hdir Hout Hfree)
      as (stable & w1 & w' & d & Hr & Hrun & _ & Hlm & Hc & _ & _ & Hno).
    rewrite Hr in Hgate. injection Hgate as ->.
    destruct (Hno eq_refl) as [-> Hm].
    exists w'. by repeat split.
  - intros w2 Hl Hin. apply on_modified_dropped; [exact Hdir |]. by rewrite Hl.
Qed.
End Handlers.

(** ** The handler at work *)

Lemma on_created_skips_locked_path_witness :
  on_created rapid_env default_config rapid_event locked_world = (Val tt, locked_world) /\
  on_created rapid_env default_config rapid_event
    (snd (_set_processing "/monitored/rapid.txt" true new_world))
  = (Val tt, snd (_set_processing "/monitored/rapid.txt" true new_world)).
Proof.
  split.
  - destruct (on_created_skips_locked_path rapid_env default_config rapid_event
                locked_world eq_refl) as [Hskip _].
    apply Hskip. reflexivity.
  - destruct (on_created_skips_locked_path rapid_env default_config rapid_event
                new_world eq_refl) as [_ Hsecond].
    apply Hsecond. reflexivity.
Defined.

Lemma processing_flag_released_witness :
  (fst (on_created rapid_env default_config rapid_event new_world) = Val tt /\
   _processing_lock (self (snd (on_created rapid_env default_config rapid_event new_world)))
     !! "/monitored/rapid.txt" = Some false) /\
  (fst (on_modified rapid_env default_config rapid_event new_world) = Val tt /\
   _processing_lock (self (snd (on_modified rapid_env default_config rapid_event new_world)))
     !! "/monitored/rapid.txt" = Some false).
Proof.
  destruct (processing_flag_released rapid_env default_config rapid_event new_world
              eq_refl eq_refl) as [Hc Hm].
  split; [exact Hc |]. apply Hm. intros H. vm_compute in H. discriminate H.
Defined.

Lemma rapid_env_burst : burst rapid_env.
Proof. intros t t'. reflexivity. Qed.

Lemma on_modified_debounced_witness :
  on_modified rapid_env default_config rapid_event stamped_world
    = (Val tt, advance stamped_world) /\
  exists w5,
    notify 5 (on_modified rapid_env default_config rapid_event) new_world = (Val tt, w5) /\
    (count_stability (calls w5) <= count_stability (calls new_world) + 1)%nat /\
    (count_process (calls w5) <= count_process (calls new_world) + 1)%nat /\
    (count_process (calls w5) <= count_process (calls new_world) + 2)%nat.
Proof.
  destruct (on_modified_debounced rapid_env default_config rapid_event eq_refl)
    as [Hdrop Hfive].
  split.
  - apply (Hdrop stamped_world 1700000000%Q); reflexivity.
  - apply Hfive. exact rapid_env_burst.
Defined.

(** Five notifications, each fired as soon as the handler has returned
    from the one before, on a file that stays put: every pass sleeps for a
    second and a half in the stability gate, so every notification is past
    the window of the one before and starts a pass of its own.  Five passes
    are started, not at most two. *)
Lemma on_modified_five_passes :
  let r := notify 5 (on_modified ticking_env default_config rapid_event) new_world in
  fst r = Val tt /\
  count_stability (calls (snd r)) = 5%nat /\
  count_process (calls (snd r)) = 5%nat /\
  ~ (count_process (calls (snd r)) <= 2)%nat.
Proof. vm_compute. repeat split. lia. Qed.

Lemma on_modified_stamp_before_lock_witness :
  on_modified rapid_env default_config rapid_event locked_world =
    (Val tt, with_self (set_time "/monitored/rapid.txt" 1700000000%Q (self locked_world))
                       (advance locked_world)) /\
  on_modified rapid_env default_config rapid_event
    (with_self (set_time "/monitored/rapid.txt" 1700000000%Q (self locked_world))
               (advance locked_world))
  = (Val tt, advance (with_self (set_time "/monitored/rapid.txt" 1700000000%Q
                                   (self locked_world)) (advance locked_world))).
Proof.
  destruct (on_modified_stamp_before_lock rapid_env default_config rapid_event locked_world
              eq_refl) as (Hlocked & _ & Hnext).
  { intros H. vm_compute in H. discriminate H. }
  split.
  - apply Hlocked. reflexivity.
  - apply Hnext; reflexivity.
Defined.

(** [test_handler_debounces_rapid_modifications], with the real stability
    gate and hasher: one pass, one manifest line. *)
Example five_rapid_modifications :
  let w5 := snd (notify 5 (on_modified rapid_env default_config rapid_event) new_world) in
  count_stability (calls w5) = 1%nat /\
  count_process (calls w5) = 1%nat /\
  manifest w5 =
    ["2024-01-01T00:00:00+00:00 | MODIFIED     | "
       +:+ "ed7002b439e9ac845f22357d822bac1444730fbdb6016d3ec9432297b9ec9f73"
       +:+ " | rapid.txt" +:+ newline].
Proof. vm_compute. repeat split. Qed.

(** [test_handler_on_created]: the calls of one pass, in order. *)
Example one_creation :
  calls (snd (on_created rapid_env default_config rapid_event new_world)) =
  [ CallStability "/monitored/rapid.txt";
    CallProcess "/monitored/rapid.txt" "CREATED";
    CallHasher "/monitored/rapid.txt";
    CallManifest "/monitored/rapid.txt"
      "ed7002b439e9ac845f22357d822bac1444730fbdb6016d3ec9432297b9ec9f73" "CREATED" ].
Proof. vm_compute. reflexivity. Qed.

(** [test_handler_concurrent_processing_lock] and
    [test_handler_ignores_directories]. *)
Example locked_or_directory :
  on_created rapid_env default_config rapid_event locked_world = (Val tt, locked_world) /\
  on_created rapid_env default_config (Event true "/monitored/some_dir") new_world
    = (Val tt, new_world) /\
  on_modified rapid_env default_config (Event true "/monitored/some_dir") new_world
    = (Val tt, new_world) /\
  on_deleted rapid_env (Event true "/monitored/some_dir") new_world
    = (Val tt, new_world).
Proof. vm_compute. repeat split. Qed.

(** ** Further properties of the stability gate *)

Section StabilityMore.
Variable E : env.

Lemma advanced_0 w : advanced 0 w = w.
Proof. by destruct w. Qed.






(** X2.  A path that has vanished by the second poll is never judged stable:
    whatever the first poll saw, the call returns [False] without raising
    after at most three system calls. *)
Theorem wait_for_file_stability_vanished (p : string) (checks : Z) (interval : Q)
    (w : world) :
  (forall t, (tick w + 2 <= t)%nat -> present_at E t p = false) ->
  exists w',
    wait_for_file_stability E p checks interval w = (Val false, w') /\
    (tick w' <= tick w + 3)%nat /\
    self w' = self w /\ manifest w' = manifest w.
Proof.
  intros Hgone. unfold wait_for_file_stability.
  rewrite (run_bind_val _ _ _ _ _ (run_record_call _ w)).
  set (w0 := logged (CallStability p) w).
  assert (Hnext : forall n prev count,
    exists w',
      stability_loop E n p checks interval prev count (advance (advance w0)) = (Val false, w') /\
      (tick w' <= tick w + 3)%nat /\ self w' = self w /\ manifest w' = manifest w).
  { intros [| n] prev count.
    - eexists. split; [reflexivity |]. simpl. repeat split; lia.
    - cbn [stability_loop].
      rewrite (run_bind_val _ _ _ _ _ (run_os_path_exists E p _)).
      rewrite Hgone by (simpl; lia). cbn [negb].
      eexists. split; [reflexivity |]. simpl. repeat split; lia. }
  destruct (Z.to_nat (checks * 3)) as [| n].
  { eexists. split; [reflexivity |]. simpl. repeat split; lia. }
  unfold catch. cbn [stability_loop].
  rewrite (run_bind_val _ _ _ _ _ (run_os_path_exists E p w0)).
  destruct (present_at E (tick w0) p); cbn [negb].
  2: { eexists. split; [reflexivity |]. simpl. repeat split; lia. }
  pose proof (run_getsize_caught E p (advance w0)) as Hg.
  destruct (polled_size E (tick (advance w0)) p) as [[size |] | e].
  - rewrite (run_bind_val _ _ _ _ _ Hg).
    replace ((size =? -1) && (0 <? size)) with false
      by (symmetry; apply andb_false_iff; destruct (Z.eqb_spec size (-1));
          [right; apply Z.ltb_ge; lia | by left]).
    unfold time_sleep.
    destruct (decide (interval < 0)%Q); [| destruct (decide (interval < sleep_limit)%Q)].
    + eexists. split; [reflexivity |]. simpl. repeat split; lia.
    + destruct (Hnext n size 0) as (w' & Hr & Hrest).
      rewrite (run_bind_val _ _ (advance (advance w0)) tt _ eq_refl). rewrite Hr.
      by exists w'.
    + eexists. split; [reflexivity |]. simpl. repeat split; lia.
  - rewrite (run_bind_val _ _ _ _ _ Hg).
    unfold time_sleep.
    destruct (decide (interval < 0)%Q); [| destruct (decide (interval < sleep_limit)%Q)].
    + eexists. split; [reflexivity |]. simpl. repeat split; lia.
    + destruct (Hnext n (-1) 0) as (w' & Hr & Hrest).
      rewrite (run_bind_val _ _ (advance (advance w0)) tt _ eq_refl). rewrite Hr.
      by exists w'.
    + eexists. split; [reflexivity |]. simpl. repeat split; lia.
  - rewrite (run_bind_raise _ _ _ _ _ Hg).
    eexists. split; [reflexivity |]. simpl. repeat split; lia.
Qed.
End StabilityMore.

(** ** Further properties of the hasher *)

Lemma returns_ret {A} (P : A -> Prop) a : P a -> returns P (ret a).
Proof. intros HP w a' w' [= <- _]. exact HP. Qed.

Lemma returns_raise {A} (P : A -> Prop) e : returns P (@raise A e).
Proof. intros w a w' [=]. Qed.

Lemma returns_bind {A B} (P : B -> Prop) (m : M A) (k : A -> M B) :
  (forall a, returns P (k a)) -> returns P (bind m k).
Proof.
  intros Hk w b w'. unfold bind. destruct (m w) as [[a | e] w1]; [apply Hk | by intros [=]].
Qed.

Lemma returns_catch {A} (P : A -> Prop) (m : M A) (h : exn -> M A) :
  returns P m -> (forall e, returns P (h e)) -> returns P (catch m h).
Proof.
  intros Hm Hh w a w'. unfold catch. destruct (m w) as [[a0 | e] w1] eqn:Hr.
  - intros [= <- _]. by apply (Hm w a0 w1).
  - apply Hh.
Qed.

Section HasherMore.
Variable E : env.

Lemma hex_digit_lower n : is_lower_hex (SHA256.hex_digit n) = true.
Proof.
  unfold SHA256.hex_digit. generalize (Z.to_nat n). intros k.
  do 16 (destruct k as [| k]; [reflexivity |]). simpl. by destruct k.
Qed.

Lemma hex_word_lower w c : In c (SHA256.hex_word w) -> is_lower_hex c = true.
Proof.
  unfold SHA256.hex_word. intros Hin. apply in_map_iff in Hin as (i & <- & _).
  apply hex_digit_lower.
Qed.

Lemma hexdigest_is_digest st : is_digest (SHA256.hexdigest st).
Proof.
  split; [reflexivity |]. unfold SHA256.hexdigest. cbv zeta.
  rewrite list_ascii_of_string_of_list_ascii. apply forallb_forall. intros c Hin.
  repeat (apply in_app_or in Hin as [Hin | Hin]; [by apply hex_word_lower in Hin |]).
  by apply hex_word_lower in Hin.
Qed.

Lemma unchanged_later t0 t1 p content :
  unchanged_file E t0 p content -> (t0 <= t1)%nat -> unchanged_file E t1 p content.
Proof. intros Hu Hle t c r Ht. apply Hu. lia. Qed.

(** A loop that returns, on a file that is not written to meanwhile, has
    fed the whole rest of the file to the hash object, or nothing at all
    when the chunk size is zero. *)
Lemma read_loop_sound fuel chunk_size p pos content h w h' w' :
  unchanged_file E (tick w) p content ->
  (length content - pos < fuel)%nat ->
  read_loop E fuel chunk_size p pos content h w = (Val h', w') ->
  h' = SHA256.update h (if chunk_size =? 0 then [] else skipn pos content).
Proof.
  revert pos h w. induction fuel as [| fuel IH]; intros pos h w Hu Hlen; [lia |].
  assert (Hu' : unchanged_file E (tick (advance w)) p content).
  { apply (unchanged_later (tick w)); [exact Hu | simpl; lia]. }
  cbn [read_loop]. unfold bind at 1, file_read.
  destruct (Z.ltb_spec chunk_size (-1)) as [Hlow | Hlow]; [by intros [=] |].
  destruct (Z.leb_spec (2 ^ 63) chunk_size) as [Hword | Hword]; [by intros [=] |].
  unfold bind, next_tick.
  destruct (fault_at E (tick w)) as [e |]; [by intros [=] |]. cbv zeta.
  replace (match fs_at E (tick w) !! p with
           | Some (File content0 _) => content0
           | _ => content
           end) with content.
  2: { destruct (fs_at E (tick w) !! p) as [[size | c r] |] eqn:Hp; try reflexivity.
       symmetry. by apply (Hu (tick w) c r). }
  destruct (Z.eqb_spec chunk_size (-1)) as [-> | Hall].
  - destruct (alloc_limit E <? Z.of_nat (length (skipn pos content))); [by intros [=] |].
    cbn [ret fst snd]. change (-1 =? 0) with false. cbv iota.
    destruct (skipn pos content) as [| b rest] eqn:Hrest; [by intros [= <- _] |].
    intros Hr. apply IH in Hr; [| exact Hu' |].
    + rewrite Hr. change (-1 =? 0) with false. cbv iota.
      rewrite (Nat.add_comm pos), <- skipn_skipn, Hrest, skipn_all.
      by rewrite update_app, app_nil_r.
    + assert (length content - pos = S (length rest))%nat
        by (by rewrite <- length_skipn, Hrest).
      simpl. lia.
  - destruct (alloc_limit E <? chunk_size); [by intros [=] |]. cbn [ret fst snd].
    destruct (Z.eqb_spec chunk_size 0) as [-> | Hnz].
    + simpl. by intros [= <- _].
    + destruct (Z.to_nat chunk_size) as [| n] eqn:Hn; [lia |].
      destruct (skipn pos content) as [| b rest] eqn:Hrest; [by intros [= <- _] |].
      assert (length content - pos = S (length rest))%nat
        by (by rewrite <- length_skipn, Hrest).
      cbn [firstn]. intros Hr. apply IH in Hr; [| exact Hu' | simpl; lia].
      rewrite Hr. replace (chunk_size =? 0) with false by (symmetry; apply Z.eqb_neq; lia).
      rewrite update_app.
      rewrite (Nat.add_comm pos), <- skipn_skipn, Hrest.
      change (b :: firstn n rest) with (firstn (S n) (b :: rest)).
      by rewrite firstn_skipn_length.
Qed.

(** X3.  Whenever [calculate_file_hash] returns a digest for a file that is
    not written to while it is read, the path was there when checked, was
    opened without failure as a readable file just after, and the digest is
    the SHA-256 of the content of the file - except that a chunk size of
    zero always gives the digest of the empty string. *)
Theorem calculate_file_hash_sound (p : string) (content : list byte) (chunk_size : Z)
    (w : world) (d : string) :
  unchanged_file E (S (tick w)) p content ->
  fst (calculate_file_hash E p "sha256" chunk_size w) = Val (Some d) ->
  present_at E (tick w) p = true /\
  fault_at E (S (tick w)) = None /\
  fs_at E (S (tick w)) !! p = Some (File content true) /\
  d = sha256_hex (if chunk_size =? 0 then [] else content).
Proof.
  intros Hu. unfold calculate_file_hash.
  rewrite (run_bind_val _ _ _ _ _ (run_record_call _ w)).
  set (w0 := logged (CallHasher p) w).
  unfold catch. rewrite (run_bind_val _ _ _ _ _ (run_os_path_exists E p w0)).
  change (tick w0) with (tick w).
  destruct (present_at E (tick w) p); cbn [negb]; [| by intros [=]].
  unfold hashlib_new. cbn [String.eqb Ascii.eqb Bool.eqb].
  rewrite (run_bind_val _ _ (advance w0) SHA256.init (advance w0) eq_refl).
  unfold bind at 1, open_rb, bind, next_tick. change (tick (advance w0)) with (S (tick w)).
  destruct (fault_at E (S (tick w))) as [e |]; [by intros [=] |].
  destruct (fs_at E (S (tick w)) !! p) as [[size | content0 [|]] |] eqn:Hp;
    try by intros [=].
  assert (content0 = content) as -> by (by apply (Hu (S (tick w)) content0 true)).
  unfold ret. cbv beta iota.
  destruct (read_loop E (S (Nat.max (disk_size E) (length content))) chunk_size p 0
              content SHA256.init (advance (advance w0))) as [[h' | e] w1] eqn:Hr;
    [| by intros [=]].
  apply read_loop_sound in Hr; [| | lia].
  2: { apply (unchanged_later (S (tick w))); [exact Hu | simpl; lia]. }
  cbn [fst]. intros [= <-].
  split; [reflexivity |]. split; [reflexivity |]. split; [reflexivity |].
  by rewrite Hr.
Qed.

Lemma returns_bind_with {A B} (Q : A -> Prop) (P : B -> Prop) (m : M A) (k : A -> M B) :
  returns Q m -> (forall a, Q a -> returns P (k a)) -> returns P (bind m k).
Proof.
  intros Hm Hk w b w'. unfold bind. destruct (m w) as [[a | e] w1] eqn:Hr; [| by intros [=]].
  apply Hk. by apply (Hm w a w1).
Qed.

Lemma calculate_file_hash_returns p chunk_size :
  returns (fun o => match o with None => True | Some d => is_digest d end)
          (calculate_file_hash E p "sha256" chunk_size).
Proof.
  unfold calculate_file_hash. apply returns_bind. intros _.
  apply returns_catch; [| intros _; by apply returns_ret].
  apply returns_bind. intros present. destruct (negb present); [by apply returns_ret |].
  do 3 (apply returns_bind; intros ?). apply returns_ret. apply hexdigest_is_digest.
Qed.

Lemma calculate_file_hash_frame p chunk_size w :
  self (snd (calculate_file_hash E p "sha256" chunk_size w)) = self w /\
  manifest (snd (calculate_file_hash E p "sha256" chunk_size w)) = manifest w.
Proof.
  split.
  - assert (Hs : keeps same_self (calculate_file_hash E p "sha256" chunk_size)).
    { apply (keeps_calculate_file_hash same_self (fun _ => True)); auto with keeps. }
    exact (Hs w).
  - assert (Hm : keeps same_manifest (calculate_file_hash E p "sha256" chunk_size)).
    { apply (keeps_calculate_file_hash same_manifest (fun _ => True)); auto with keeps. }
    exact (Hm w).
Qed.

(** X4.  [calculate_file_hash] never raises; what it returns is [None] or
    sixty-four lowercase hexadecimal characters; it leaves the handler's
    tables and the manifest as they were. *)
Theorem calculate_file_hash_shape (p : string) (chunk_size : Z) (w : world) :
  exists o w',
    calculate_file_hash E p "sha256" chunk_size w = (Val o, w') /\
    match o with None => True | Some d => is_digest d end /\
    self w' = self w /\ manifest w' = manifest w.
Proof.
  destruct (calculate_file_hash_total E p "sha256" chunk_size w) as (o & w' & Hr).
  exists o, w'. split; [exact Hr |].
  split; [exact (calculate_file_hash_returns p chunk_size w o w' Hr) |].
  pose proof (calculate_file_hash_frame p chunk_size w) as Hf. by rewrite Hr in Hf.
Qed.
End HasherMore.

Lemma calculate_file_hash_sound_witness :
  present_at abc_env 0 "/monitored/abc.txt" = true /\
  fault_at abc_env 1 = None /\
  fs_at abc_env 1 !! "/monitored/abc.txt"
    = Some (File (list_byte_of_string "abc") true) /\
  "ba7816bf8f01cfea414140de5dae2223b00361a396177a9cb410ff61f20015ad"%string
    = sha256_hex (if 2 =? 0 then [] else list_byte_of_string "abc").
Proof.
  apply (calculate_file_hash_sound abc_env "/monitored/abc.txt"
           (list_byte_of_string "abc") 2 new_world).
  - intros t c r _ H. vm_compute in H. by injection H as <- _.
  - vm_compute. reflexivity.
Defined.

(** ** Further properties of the retry policy and of the hash-and-log sequence *)

Section RetryMore.
Variable E : env.
Variable cfg : config.

Lemma steady_file_later t0 t1 p content :
  steady_file E t0 p content -> (t0 <= t1)%nat -> steady_file E t1 p content.
Proof. intros Hs Hle t Ht. apply Hs. lia. Qed.

Lemma sha256_hex_truthy content : truthy (Some (sha256_hex content)) = true.
Proof.
  pose proof (hexdigest_length (SHA256.update SHA256.init content)) as Hl.
  unfold sha256_hex. by destruct (SHA256.hexdigest _).
Qed.

(** The hasher on a file that stays put. *)
Lemma calculate_file_hash_steady p content w :
  chunk_fits E (HASH_CHUNK_SIZE cfg) ->
  steady_file E (tick w) p content ->
  exists w',
    calculate_file_hash E p "sha256" (HASH_CHUNK_SIZE cfg) w
      = (Val (Some (sha256_hex content)), w') /\
    self w' = self w /\ manifest w' = manifest w /\
    calls w' = calls w ++ [CallHasher p] /\ (tick w <= tick w')%nat.
Proof.
  intros Hc Hs.
  pose proof (calculate_file_hash_chunked E p content (HASH_CHUNK_SIZE cfg) w Hc
                (fun t Ht => proj1 (Hs t Ht)) (fun t Ht => proj2 (Hs t Ht))) as Hd.
  pose proof (calculate_file_hash_frame E p (HASH_CHUNK_SIZE cfg) w) as [Hself Hman].
  pose proof (calculate_file_hash_calls E p "sha256" (HASH_CHUNK_SIZE cfg) w) as Hcalls.
  assert (Hl : keeps (fun a b => (tick a <= tick b)%nat)
                 (calculate_file_hash E p "sha256" (HASH_CHUNK_SIZE cfg))).
  { assert (Hpre : PreOrder (fun a b : world => (tick a <= tick b)%nat))
      by (split; [intros a | intros a b c]; lia).
    apply (keeps_calculate_file_hash _ (fun _ => True)); [by intros a; simpl; lia | | done].
    intros c _ a. simpl. lia. }
  specialize (Hl w).
  destruct (calculate_file_hash E p "sha256" (HASH_CHUNK_SIZE cfg) w) as [r w'].
  simpl in *. subst r. by exists w'.
Qed.

Lemma retry_loop_recovers k n attempt p content max_retries w :
  (k < n)%nat -> 0 <= attempt ->
  chunk_fits E (HASH_CHUNK_SIZE cfg) ->
  (forall t, (tick w <= t < tick w + k)%nat -> present_at E t p = false) ->
  steady_file E (tick w + k) p content ->
  exists w',
    retry_loop E cfg n attempt p max_retries w
      = (Val (Some (sha256_hex content), true), w') /\
    self w' = self w /\ manifest w' = manifest w /\
    calls w' = calls w ++ [CallHasher p] /\ (tick w <= tick w')%nat.
Proof.
  intros Hk Ha Hc. revert n attempt w Hk Ha.
  induction k as [| k IH]; intros n attempt w Hk Ha Hgone Hs.
  - destruct n as [| n]; [lia |]. cbn [retry_loop].
    rewrite (run_bind_val _ _ _ _ _ (run_os_path_exists E p w)).
    destruct (Hs (tick w)) as [Hf Hfile]; [lia |].
    rewrite (present_at_file E _ p _ Hf Hfile). cbn [negb].
    destruct (calculate_file_hash_steady p content (advance w) Hc)
      as (w' & Hr & Hself & Hman & Hcalls & Ht).
    { apply (steady_file_later (tick w + 0)); [exact Hs | simpl; lia]. }
    rewrite (run_bind_val _ _ _ _ _ Hr). rewrite sha256_hex_truthy.
    exists w'. simpl in *. repeat split; auto. lia.
  - destruct n as [| n]; [lia |].
    rewrite (retry_loop_absent E cfg n attempt p max_retries w) by (apply Hgone; lia).
    destruct (IH n (attempt + 1) (advance w)) as (w' & Hr & Hself & Hman & Hcalls & Ht);
      [lia | lia | | |].
    + intros t Ht. apply Hgone. simpl in Ht. lia.
    + apply (steady_file_later (tick w + S k)); [exact Hs | simpl; lia].
    + exists w'. simpl in *. repeat split; auto. lia.
Qed.

(** X5.  A path that is missing on the first [k] attempts, with
    [k < max_retries], and then holds a readable file that stays put, is
    hashed on attempt [k + 1], given a chunk size [f.read] can serve (at
    least one byte, a buffer that can be allocated): the call returns the
    SHA-256 of the content with [True], after exactly one invocation of the
    hasher. *)
Theorem calculate_file_hash_with_retry_recovers (p : string) (content : list byte)
    (max_retries : Z) (k : nat) (w : world) :
  (k < Z.to_nat max_retries)%nat ->
  chunk_fits E (HASH_CHUNK_SIZE cfg) ->
  (forall t, (tick w <= t < tick w + k)%nat -> present_at E t p = false) ->
  steady_file E (tick w + k) p content ->
  exists w',
    calculate_file_hash_with_retry E cfg p max_retries w
      = (Val (Some (sha256_hex content), true), w') /\
    calls w' = calls w ++ [CallHasher p] /\
    self w' = self w /\ manifest w' = manifest w.
Proof.
  intros Hk Hc Hgone Hs. unfold calculate_file_hash_with_retry.
  destruct (retry_loop_recovers k (Z.to_nat max_retries) 0 p content max_retries w)
    as (w' & Hr & Hself & Hman & Hcalls & _); auto; [lia |].
  by exists w'.
Qed.

(** What the retry loop returns as a digest is a digest. *)
Lemma retry_loop_returns n attempt p max_retries :
  returns (fun r => match fst r with None => True | Some d => is_digest d end)
          (retry_loop E cfg n attempt p max_retries).
Proof.
  revert attempt. induction n as [| n IH]; intros attempt; cbn [retry_loop].
  - by apply returns_ret.
  - apply returns_bind. intros present. destruct (negb present).
    + apply returns_bind. intros _. apply IH.
    + apply (returns_bind_with _ _ _ _ (calculate_file_hash_returns E p (HASH_CHUNK_SIZE cfg))).
      intros o Ho. destruct (truthy o); [by apply returns_ret |].
      apply returns_bind. intros _. apply IH.
Qed.

Lemma process_file_safe_log (p k : string) (w : world) :
  exists w' n tail,
    _process_file_safe E cfg p k w = (Val tt, w') /\
    self w' = self w /\
    calls w' = calls w ++ CallProcess p k :: repeat (CallHasher p) n ++ tail /\
    (n <= Z.to_nat (MAX_HASH_RETRIES cfg))%nat /\
    ((tail = [] /\ manifest w' = manifest w) \/
     exists d, is_digest d /\ tail = [CallManifest p d k] /\
       (manifest w' = manifest w \/
        exists t, manifest w' = manifest w ++ [manifest_entry (stamp_at E t) k d (path_name p)])) /\
    (present_at E (tick w) p = false -> n = 0%nat /\ tail = []).
Proof.
  unfold _process_file_safe.
  rewrite (run_bind_val _ _ _ _ _ (run_record_call _ w)).
  set (w0 := logged (CallProcess p k) w).
  unfold catch. rewrite (run_bind_val _ _ _ _ _ (run_os_path_exists E p w0)).
  change (tick w0) with (tick w).
  destruct (present_at E (tick w) p); cbn [negb].
  2: { exists (advance w0), 0%nat, []. simpl. repeat split; auto. lia. }
  destruct (retry_loop_outcome E cfg (Z.to_nat (MAX_HASH_RETRIES cfg)) 0 p
              (MAX_HASH_RETRIES cfg) (advance w0))
    as (r & w1 & n & Hr & Hshape & Hcalls & Hn).
  assert (Hs : keeps same_self (calculate_file_hash_with_retry E cfg p (MAX_HASH_RETRIES cfg))).
  { apply (keeps_calculate_file_hash_with_retry same_self (fun _ => True)); auto with keeps. }
  assert (Hm : keeps same_manifest
                 (calculate_file_hash_with_retry E cfg p (MAX_HASH_RETRIES cfg))).
  { apply (keeps_calculate_file_hash_with_retry same_manifest (fun _ => True));
      auto with keeps. }
  specialize (Hs (advance w0)). specialize (Hm (advance w0)).
  unfold calculate_file_hash_with_retry in *. rewrite Hr in Hs, Hm.
  simpl in Hs, Hm, Hcalls.
  destruct Hshape as [-> | [(d & -> & Hne) | (e & ->)]].
  - rewrite (run_bind_val _ _ _ _ _ Hr). cbn [fst snd andb truthy].
    exists w1, n, []. rewrite app_nil_r.
    split; [reflexivity |]. split; [exact Hs |]. split; [by rewrite Hcalls, <- app_assoc |].
    split; [exact Hn |]. split; [by left | discriminate].
  - pose proof (retry_loop_returns _ _ _ _ _ _ _ Hr) as Hdig.
    rewrite (run_bind_val _ _ _ _ _ Hr). cbn [fst snd andb truthy].
    destruct d as [| c d]; [done |]. cbn [fst] in Hdig.
    rewrite run_log_hash_to_manifest. cbv zeta.
    set (d' := String c d) in *.
    assert (Hc3 : forall w2 : world,
      calls w2 = calls w1 ++ [CallManifest p d' k] ->
      calls w2 = calls w ++ CallProcess p k :: repeat (CallHasher p) n ++ [CallManifest p d' k]).
    { intros w2 ->. rewrite Hcalls. by rewrite <- !app_assoc. }
    destruct (fault_at E (tick w1)) as [e |].
    + eexists _, n, [CallManifest p d' k]. split; [reflexivity |].
      split; [exact Hs |]. split; [by apply Hc3 |]. split; [exact Hn |].
      split; [| discriminate]. right. exists d'. split; [exact Hdig |].
      split; [reflexivity |]. left. simpl. exact Hm.
    + destruct (fault_at E (S (S (tick w1)))) as [[] |];
        (eexists _, n, [CallManifest p d' k]; split; [reflexivity |];
         split; [exact Hs |]; split; [by apply Hc3 |]; split; [exact Hn |];
         split; [| discriminate]; right; exists d'; split; [exact Hdig |];
         split; [reflexivity |]; simpl; rewrite Hm; eauto).
  - rewrite (run_bind_raise _ _ _ _ _ Hr).
    exists w1, n, []. rewrite app_nil_r.
    split; [reflexivity |]. split; [exact Hs |]. split; [by rewrite Hcalls, <- app_assoc |].
    split; [exact Hn |]. split; [by left | discriminate].
Qed.

(** X6.  [_process_file_safe] never raises and leaves the handler's tables
    alone.  After its own entry the call log holds at most
    [MAX_HASH_RETRIES] hasher invocations, followed by at most one manifest
    invocation, whose digest is sixty-four lowercase hexadecimal
    characters; the manifest gains at most one line, the one for that
    digest.  When the path is missing at the first check, neither the
    hasher nor the manifest is invoked. *)
Theorem _process_file_safe_shape (p k : string) (w : world) :
  exists w' n tail,
    _process_file_safe E cfg p k w = (Val tt, w') /\
    self w' = self w /\
    calls w' = calls w ++ CallProcess p k :: repeat (CallHasher p) n ++ tail /\
    (n <= Z.to_nat (MAX_HASH_RETRIES cfg))%nat /\
    ((tail = [] /\ manifest w' = manifest w) \/
     exists d, is_digest d /\ tail = [CallManifest p d k] /\
       (manifest w' = manifest w \/
        exists t, manifest w' = manifest w ++ [manifest_entry (stamp_at E t) k d (path_name p)])) /\
    (present_at E (tick w) p = false -> n = 0%nat /\ tail = []).
Proof. apply process_file_safe_log. Qed.
End RetryMore.

Lemma calculate_file_hash_with_retry_recovers_witness :
  exists w',
    calculate_file_hash_with_retry late_env default_config "/monitored/abc.txt" 3 new_world
      = (Val (Some (sha256_hex (list_byte_of_string "abc")), true), w') /\
    calls w' = calls new_world ++ [CallHasher "/monitored/abc.txt"] /\
    self w' = self new_world /\ manifest w' = manifest new_world.
Proof.
  apply (calculate_file_hash_with_retry_recovers late_env default_config
           "/monitored/abc.txt" (list_byte_of_string "abc") 3 2 new_world).
  - simpl. lia.
  - by vm_compute.
  - intros t Ht. simpl in Ht. assert (t = 0 \/ t = 1)%nat as [-> | ->] by lia; reflexivity.
  - intros t Ht. simpl in Ht. split; [reflexivity |].
    do 2 (destruct t as [| t]; [lia |]). reflexivity.
Defined.

(** ** Further properties of the manifest *)

Section ManifestMore.
Variable E : env.

(** X7.  [log_hash_to_manifest] raises exactly when creating the manifest
    directory fails, whatever the error (a [PermissionError] included: the
    [mkdir] is outside the [try]), or when the append fails with anything
    but a [PermissionError].  A [PermissionError] on the append is
    swallowed.  In all these cases the manifest is left as it was: a line is
    written only by a call that returns normally. *)
Theorem log_hash_to_manifest_errors (p h k : string) (w : world) :
  let r := log_hash_to_manifest E p h k w in
  (forall e,
     fst r = Raise e <->
     fault_at E (tick w) = Some e \/
     (fault_at E (tick w) = None /\ fault_at E (S (S (tick w))) = Some e /\
      e <> PermissionError)) /\
  (fault_at E (tick w) = None -> fault_at E (S (S (tick w))) = Some PermissionError ->
   fst r = Val tt /\ manifest (snd r) = manifest w) /\
  (manifest (snd r) <> manifest w -> fst r = Val tt).
Proof.
  cbv zeta. rewrite run_log_hash_to_manifest. cbv zeta.
  destruct (fault_at E (tick w)) as [e0 |].
  - split; [| split]; [| discriminate | by intros []].
    intros e. cbn [fst]. split.
    + intros [= ->]. by left.
    + intros [[= ->] | ([=] & _)]. reflexivity.
  - destruct (fault_at E (S (S (tick w)))) as [e2 |].
    + split; [| split].
      * intros e. split.
        -- destruct e2; cbn [fst]; intros [= <-]; right; by repeat split.
        -- intros [[=] | (_ & [= ->] & Hne)]. by destruct e.
      * intros _ [= ->]. by split.
      * destruct e2; simpl; intros Hne; done.
    + split; [| split]; [| discriminate | done].
      intros e. cbn [fst]. split; [discriminate |]. by intros [[=] | (_ & [=] & _)].
Qed.

Lemma components_app a b cur :
  components (a +:+ String "/" b) cur = components a cur ++ components b "".
Proof.
  revert cur. induction a as [| c a IH]; intros cur; simpl; [reflexivity |].
  destruct (Ascii.eqb c "/"); by rewrite IH.
Qed.

Lemma append_empty_r s : (s +:+ "")%string = s.
Proof.
  induction s as [| c s IH]; [reflexivity |].
  change (String c (s +:+ "") = String c s). by rewrite IH.
Qed.

Lemma append_snoc cur c s : ((cur +:+ String c "") +:+ s)%string = (cur +:+ String c s)%string.
Proof.
  induction cur as [| c' cur IH]; [reflexivity |].
  change (String c' ((cur +:+ String c "") +:+ s) = String c' (cur +:+ String c s)).
  by rewrite IH.
Qed.

Lemma components_plain s cur :
  has_slash s = false -> components s cur = [cur +:+ s].
Proof.
  revert cur. induction s as [| c s IH]; intros cur Hs; simpl.
  - by rewrite append_empty_r.
  - unfold has_slash in Hs. simpl in Hs. apply orb_false_iff in Hs as [Hc Hs].
    rewrite Hc. rewrite (IH _ Hs). by rewrite append_snoc.
Qed.

Lemma path_name_plain name :
  has_slash name = false -> path_name name = if kept name then name else ""%string.
Proof.
  intros Hs. unfold path_name. rewrite (components_plain name "" Hs).
  change ("" +:+ name)%string with name. cbn [List.filter].
  fold (kept name). by destruct (kept name).
Qed.

Lemma last_app_singleton {A} (l : list A) (x d : A) : List.last (l ++ [x]) d = x.
Proof. induction l as [| y l IH]; [done |]. simpl. rewrite IH. by destruct (l ++ [x]) eqn:Hl; [destruct l |]. Qed.

(** X8.  The base name of [dir/name] is [name], whatever [dir] is, for
    every [name] that holds no slash and is neither empty nor ["."]. *)
Theorem path_name_join (dir name : string) :
  has_slash name = false -> name <> ""%string -> name <> "."%string ->
  path_name (dir +:+ String "/" name) = name.
Proof.
  intros Hs Hne Hdot. unfold path_name. rewrite components_app.
  rewrite (components_plain name "" Hs). change ("" +:+ name)%string with name.
  rewrite List.filter_app. cbn [List.filter].
  replace (negb (String.eqb name "") && negb (String.eqb name ".")) with true.
  - apply last_app_singleton.
  - symmetry. apply andb_true_iff. split; apply negb_true_iff; by apply String.eqb_neq.
Qed.

(** X9.  Trailing slashes and trailing ["."] components do not change the
    base name, and taking the base name twice gives nothing new. *)
Theorem path_name_trailing (p : string) :
  path_name (p +:+ "/") = path_name p /\
  path_name (p +:+ "/.") = path_name p /\
  path_name (path_name p) = path_name p.
Proof.
  split; [| split].
  - unfold path_name. change (p +:+ "/")%string with (p +:+ String "/" "").
    rewrite components_app. rewrite List.filter_app. cbn [components List.filter].
    cbn. by rewrite app_nil_r.
  - unfold path_name. change (p +:+ "/.")%string with (p +:+ String "/" ".").
    rewrite components_app. rewrite List.filter_app. cbn [components List.filter].
    cbn. by rewrite app_nil_r.
  - rewrite (path_name_plain (path_name p) (path_name_no_slash p)).
    destruct (kept (path_name p)) eqn:Hk; [reflexivity |].
    unfold path_name in *.
    set (l := List.filter _ (components p "")) in *.
    assert (Hall : List.Forall (fun c => kept c = true) l).
    { apply List.Forall_forall. intros c Hc. by apply List.filter_In in Hc as [_ Hc]. }
    clearbody l. induction Hall as [| c l Hc Hall IH]; [reflexivity |].
    destruct l as [| c' l]; [simpl in *; congruence | by apply IH].
Qed.
End ManifestMore.

Lemma path_name_join_witness :
  path_name ("/var/monitored/reports" +:+ String "/" "q3.final.pdf") = "q3.final.pdf"%string.
Proof. apply (path_name_join "/var/monitored/reports" "q3.final.pdf"); [reflexivity | done | done]. Defined.


Lemma wait_for_file_stability_vanished_witness :
  exists w',
    wait_for_file_stability bare_env "/monitored/gone.txt" 3 (1 # 2) new_world
      = (Val false, w') /\
    (tick w' <= tick new_world + 3)%nat /\
    self w' = self new_world /\ manifest w' = manifest new_world.
Proof.
  apply (wait_for_file_stability_vanished bare_env "/monitored/gone.txt" 3 (1 # 2) new_world).
  intros t _. reflexivity.
Defined.

(** ** Further properties of the handlers *)

Section HandlersMore.
Variable E : env.
Variable cfg : config.

Lemma on_created_state event w :
  is_directory event = false ->
  locked_in (self w) (src_path event) = false ->
  let p := src_path event in
  let w1 := with_self (set_lock p true (self w)) w in
  exists wc,
    created_pass E cfg p w1 = (Val tt, wc) /\
    on_created E cfg event w = (Val tt, with_self (set_lock p false (self wc)) wc).
Proof.
  intros Hdir Hlock. cbv zeta. set (p := src_path event) in *.
  destruct (created_pass_effect E cfg p (with_self (set_lock p true (self w)) w))
    as (stable & w_gate & wc & d & _ & Hp & _).
  exists wc. split; [exact Hp |].
  unfold on_created. rewrite Hdir.
  rewrite (run_bind_val _ _ _ _ _ (run__is_file_locked _ _)). fold p. rewrite Hlock.
  rewrite (run_bind_val _ _ _ _ _ (run__set_processing _ _ _)).
  unfold finally. rewrite Hp. by rewrite run__set_processing.
Qed.

Lemma cleanup_last_modified_exact now w :
  exists h',
    cleanup_last_modified now w = (Val tt, with_self h' w) /\
    _processing_lock h' = _processing_lock (self w) /\
    (_last_modified h' = _last_modified (self w) \/
     ((1000 < size (_last_modified (self w)))%nat /\
      _last_modified h' =
        filter (fun kv => (now - 60 < snd kv)%Q) (_last_modified (self w)))).
Proof.
  unfold cleanup_last_modified, bind, get_self.
  destruct (Nat.ltb_spec 1000 (size (_last_modified (self w)))) as [Hbig | Hsmall].
  - eexists. split; [reflexivity |]. split; [reflexivity |]. right. by split.
  - exists (self w). split; [by destruct w |]. split; [reflexivity | by left].
Qed.

Lemma on_modified_state event w :
  is_directory event = false ->
  ~ (time_at E (tick w)
       - default 0%Q (_last_modified (self w) !! src_path event) < 1)%Q ->
  locked_in (self w) (src_path event) = false ->
  let p := src_path event in
  let now := time_at E (tick w) in
  let wb := with_self (set_lock p true (set_time p now (self w))) (advance w) in
  exists fell wc h',
    modified_pass E cfg p wb = (Val fell, wc) /\
    self wc = self wb /\
    _processing_lock h' = <[p := false]> (_processing_lock (self wc)) /\
    (_last_modified h' = _last_modified (self wc) \/
     ((1000 < size (_last_modified (self wc)))%nat /\
      _last_modified h' =
        filter (fun kv => (now - 60 < snd kv)%Q) (_last_modified (self wc)))) /\
    on_modified E cfg event w = (Val tt, with_self h' wc).
Proof.
  intros Hdir Hout Hlock. cbv zeta.
  set (p := src_path event) in *. set (now := time_at E (tick w)) in *.
  set (wb := with_self (set_lock p true (set_time p now (self w))) (advance w)).
  destruct (pass_effect E cfg p "MODIFIED" false true wb)
    as (stable & w1 & wc & d & Hr & Hp & Hs & _).
  set (wd := with_self (set_lock p false (self wc)) wc).
  destruct (cleanup_last_modified_exact now wd) as (h' & Hcl & Hl & Hk).
  assert (Hfin : finally (modified_pass E cfg p) (_set_processing p false) wb =
                 (Val (if stable then true else false), wd)).
  { unfold finally, modified_pass. rewrite Hp. by rewrite run__set_processing. }
  assert (Hrun : on_modified E cfg event w =
                 (Val tt, if stable then with_self h' wd else wd)).
  { unfold on_modified. rewrite Hdir.
    rewrite (run_bind_val _ _ _ _ _ (run_time_time E w)).
    unfold bind at 1, get_self. cbn [self advance]. fold p. fold now.
    destruct (decide _) as [Hin | _]; [done |].
    unfold bind at 1, put_self. cbn [tick self manifest calls].
    rewrite (run_bind_val _ _ _ _ _ (run__is_file_locked _ _)).
    cbn [self]. unfold locked_in in Hlock |- *. cbn [_processing_lock]. rewrite Hlock.
    rewrite (run_bind_val _ _ _ _ _ (run__set_processing _ _ _)).
    match goal with
    | |- bind ?m ?k _ = ?rhs => change (bind m k wb = rhs)
    end.
    rewrite (run_bind_val _ _ _ _ _ Hfin). destruct stable; [exact Hcl | reflexivity]. }
  exists (if stable then true else false), wc, (if stable then h' else self wd).
  split; [exact Hp |]. split; [exact Hs |].
  destruct stable.
  - split; [by rewrite Hl |]. split; [exact Hk | exact Hrun].
  - split; [reflexivity |]. split; [by left | exact Hrun].
Qed.

(** X10.  No handler ever raises: for every event, every state of the
    handler and every behaviour of the file system, [on_created],
    [on_modified] and [on_deleted] return normally. *)
Theorem handlers_never_raise (event : FileSystemEvent) (w : world) :
  fst (on_created E cfg event w) = Val tt /\
  fst (on_modified E cfg event w) = Val tt /\
  fst (on_deleted E event w) = Val tt.
Proof.
  destruct (is_directory event) eqn:Hdir.
  { unfold on_created, on_modified, on_deleted. by rewrite Hdir. }
  split; [| split].
  - destruct (locked_in (self w) (src_path event)) eqn:Hlock.
    + unfold on_created. rewrite Hdir.
      rewrite (run_bind_val _ _ _ _ _ (run__is_file_locked _ _)). by rewrite Hlock.
    + destruct (on_created_state event w Hdir Hlock) as (wc & _ & ->). reflexivity.
  - destruct (decide (time_at E (tick w)
                - default 0%Q (_last_modified (self w) !! src_path event) < 1)%Q)
      as [Hin | Hout].
    + by rewrite (on_modified_dropped E cfg event w Hdir Hin).
    + destruct (locked_in (self w) (src_path event)) eqn:Hlock.
      * by rewrite (on_modified_locked E cfg event w Hdir Hout Hlock).
      * destruct (on_modified_state event w Hdir Hout Hlock)
          as (fell & wc & h' & _ & _ & _ & _ & ->). reflexivity.
  - unfold on_deleted. rewrite Hdir.
    destruct (total_catch (log_hash_to_manifest E (src_path event) "N/A" "DELETED")
                (fun _ => ret tt) (fun _ => total_ret tt) w) as ([] & w' & ->).
    reflexivity.
Qed.
End HandlersMore.

Section EndToEnd.
Variable E : env.
Variable cfg : config.




End EndToEnd.



Section Isolation.
Variable E : env.
Variable cfg : config.

(** What an admitted pass can add to the manifest. *)
Lemma pass_manifest p k w :
  let w' := snd (_process_file_safe E cfg p k w) in
  manifest w' = manifest w \/
  exists t d, is_digest d /\
    manifest w' = manifest w ++ [manifest_entry (stamp_at E t) k d (path_name p)].
Proof.
  cbv zeta.
  destruct (process_file_safe_log E cfg p k w)
    as (w' & n & tail & -> & _ & _ & _ & [[_ Hm] | (d & Hd & _ & [Hm | [t Hm]])] & _);
    cbn [snd]; [by left | by left | right; by exists t, d].
Qed.

(** X13.  The only thing [on_created] and [on_modified] can do to the
    manifest is append one line, and that line has the event kind of the
    handler, a digest of sixty-four lowercase hexadecimal characters and the
    base name of the path: no line carries a missing or empty digest. *)
Theorem handlers_append_one_digest_line (event : FileSystemEvent) (w : world) :
  let p := src_path event in
  (let w' := snd (on_created E cfg event w) in
   manifest w' = manifest w \/
   exists t d, is_digest d /\
     manifest w' = manifest w ++ [manifest_entry (stamp_at E t) "CREATED" d (path_name p)]) /\
  (let w' := snd (on_modified E cfg event w) in
   manifest w' = manifest w \/
   exists t d, is_digest d /\
     manifest w' = manifest w ++ [manifest_entry (stamp_at E t) "MODIFIED" d (path_name p)]).
Proof.
  cbv zeta. set (p := src_path event).
  destruct (is_directory event) eqn:Hdir.
  { unfold on_created, on_modified. rewrite Hdir. split; by left. }
  split.
  - destruct (locked_in (self w) p) eqn:Hlock.
    + unfold on_created. rewrite Hdir.
      rewrite (run_bind_val _ _ _ _ _ (run__is_file_locked _ _)). fold p. rewrite Hlock.
      by left.
    + destruct (on_created_state E cfg event w Hdir Hlock) as (wc & Hpass & ->).
      fold p in Hpass. cbn [snd with_self manifest].
      set (w1 := with_self (set_lock p true (self w)) w) in *.
      destruct (wait_for_file_stability_effect E p (FILE_STABILITY_CHECKS cfg)
                  (FILE_STABILITY_INTERVAL cfg) w1) as (stable & w2 & Hr & _ & Hm & _).
      unfold created_pass in Hpass. rewrite (run_bind_val _ _ _ _ _ Hr) in Hpass.
      destruct stable; cbn [negb] in Hpass.
      * pose proof (pass_manifest p "CREATED" w2) as Hp. cbv zeta in Hp.
        rewrite Hpass in Hp. cbn [snd] in Hp. by rewrite Hm in Hp.
      * injection Hpass as <-. left. exact Hm.
  - destruct (decide (time_at E (tick w)
                - default 0%Q (_last_modified (self w) !! src_path event) < 1)%Q)
      as [Hin | Hout].
    { rewrite (on_modified_dropped E cfg event w Hdir Hin). by left. }
    destruct (locked_in (self w) p) eqn:Hlock.
    { rewrite (on_modified_locked E cfg event w Hdir Hout Hlock). by left. }
    destruct (on_modified_state E cfg event w Hdir Hout Hlock)
      as (fell & wc & h' & Hpass & _ & _ & _ & ->).
    fold p in Hpass. cbn [snd with_self manifest].
    set (wb := with_self _ (advance w)) in *.
    destruct (wait_for_file_stability_effect E p (FILE_STABILITY_CHECKS cfg)
                (FILE_STABILITY_INTERVAL cfg) wb) as (stable & w2 & Hr & _ & Hm & _).
    unfold modified_pass in Hpass. rewrite (run_bind_val _ _ _ _ _ Hr) in Hpass.
    destruct stable; cbn [negb] in Hpass.
    + pose proof (pass_manifest p "MODIFIED" w2) as Hp. cbv zeta in Hp.
      destruct (_process_file_safe_effect E cfg p "MODIFIED" w2) as (w3 & d & Hproc & _).
      rewrite (run_bind_val _ _ _ _ _ Hproc) in Hpass. injection Hpass as _ <-.
      rewrite Hproc in Hp. cbn [snd] in Hp. by rewrite Hm in Hp.
    + injection Hpass as _ <-. left. exact Hm.
Qed.

(** X14.  A creation or modification notification for one path leaves the
    processing flag of every other path as it was, and a creation
    notification leaves the whole debounce table as it was. *)
Theorem handlers_leave_other_flags (event : FileSystemEvent) (w : world) (q : string) :
  q <> src_path event ->
  _processing_lock (self (snd (on_created E cfg event w))) !! q
    = _processing_lock (self w) !! q /\
  _last_modified (self (snd (on_created E cfg event w))) = _last_modified (self w) /\
  _processing_lock (self (snd (on_modified E cfg event w))) !! q
    = _processing_lock (self w) !! q.
Proof.
  intros Hq. set (p := src_path event) in *.
  destruct (is_directory event) eqn:Hdir.
  { unfold on_created, on_modified. by rewrite Hdir. }
  assert (Hc : _processing_lock (self (snd (on_created E cfg event w))) !! q
               = _processing_lock (self w) !! q /\
               _last_modified (self (snd (on_created E cfg event w)))
               = _last_modified (self w)).
  { destruct (locked_in (self w) p) eqn:Hlock.
    - unfold on_created. rewrite Hdir.
      rewrite (run_bind_val _ _ _ _ _ (run__is_file_locked _ _)). fold p. by rewrite Hlock.
    - destruct (on_created_state E cfg event w Hdir Hlock) as (wc & Hpass & ->).
      fold p in Hpass.
      destruct (created_pass_effect E cfg p (with_self (set_lock p true (self w)) w))
        as (stable & w2 & wc' & d & _ & Hpass' & Hs & _).
      rewrite Hpass in Hpass'. injection Hpass' as <-.
      cbn [snd with_self self set_lock _processing_lock _last_modified].
      rewrite Hs. cbn [self with_self set_lock _processing_lock _last_modified].
      split; [| reflexivity]. by rewrite !lookup_insert_ne. }
  destruct Hc as [Hc1 Hc2]. split; [exact Hc1 |]. split; [exact Hc2 |].
  destruct (decide (time_at E (tick w)
              - default 0%Q (_last_modified (self w) !! src_path event) < 1)%Q)
    as [Hin | Hout].
  { by rewrite (on_modified_dropped E cfg event w Hdir Hin). }
  destruct (locked_in (self w) p) eqn:Hlock.
  { by rewrite (on_modified_locked E cfg event w Hdir Hout Hlock). }
  destruct (on_modified_state E cfg event w Hdir Hout Hlock)
    as (fell & wc & h' & _ & Hs & Hl & _ & ->).
  fold p in Hs, Hl. cbn [snd with_self self]. rewrite Hl, Hs.
  cbn [self with_self set_lock set_time _processing_lock].
  by rewrite !lookup_insert_ne.
Qed.

(** X15.  A modification notification never invents or changes the time
    stamp of another path.  It can only drop one, and only in the clean-up
    after a completed pass: when the table, with the stamp of the notifying
    path stored, holds more than 1000 entries and the stamp dropped is at
    least 60 seconds older than the notification. *)
Theorem on_modified_other_stamps (event : FileSystemEvent) (w : world) (q : string) (v : Q) :
  q <> src_path event ->
  let p := src_path event in
  let now := time_at E (tick w) in
  let after := _last_modified (self (snd (on_modified E cfg event w))) in
  (after !! q = Some v -> _last_modified (self w) !! q = Some v) /\
  (_last_modified (self w) !! q = Some v ->
   after !! q = Some v \/
   (after !! q = None /\ (v <= now - 60)%Q /\
    (1000 < size (<[p := now]> (_last_modified (self w))))%nat)).
Proof.
  intros Hq. cbv zeta. set (p := src_path event) in *.
  set (now := time_at E (tick w)).
  destruct (is_directory event) eqn:Hdir.
  { unfold on_modified. rewrite Hdir. cbn [snd ret]. auto. }
  destruct (decide (now - default 0%Q (_last_modified (self w) !! src_path event) < 1)%Q)
    as [Hin | Hout].
  { rewrite (on_modified_dropped E cfg event w Hdir Hin). cbn [snd advance self]. auto. }
  destruct (locked_in (self w) p) eqn:Hlock.
  { rewrite (on_modified_locked E cfg event w Hdir Hout Hlock).
    cbn [snd with_self self set_time _last_modified]. fold p.
    rewrite lookup_insert_ne by done. auto. }
  destruct (on_modified_state E cfg event w Hdir Hout Hlock)
    as (fell & wc & h' & _ & Hs & _ & Hk & ->).
  fold p in Hs, Hk. fold now in Hs, Hk. cbn [snd with_self self].
  assert (Hlm : _last_modified (self wc) = <[p := now]> (_last_modified (self w))).
  { by rewrite Hs. }
  destruct Hk as [-> | [Hbig ->]]; rewrite Hlm in *.
  - rewrite lookup_insert_ne by done. auto.
  - split.
    + intros Hafter. apply map_lookup_filter_Some in Hafter as [Hafter _].
      by rewrite lookup_insert_ne in Hafter.
    + intros Hbefore. destruct (decide (now - 60 < v)%Q) as [Hnew | Hold].
      * left. apply map_lookup_filter_Some_2; [by rewrite lookup_insert_ne | exact Hnew].
      * right. split; [| split; [by apply Qnot_lt_le | exact Hbig]].
        apply map_lookup_filter_None. right. intros x Hx.
        rewrite lookup_insert_ne in Hx by done. simpl. congruence.
Qed.

Lemma wait_for_file_stability_no_checks p checks interval w :
  checks <= 0 ->
  wait_for_file_stability E p checks interval w = (Val false, logged (CallStability p) w).
Proof.
  intros Hc. unfold wait_for_file_stability.
  rewrite (run_bind_val _ _ _ _ _ (run_record_call _ w)).
  by replace (Z.to_nat (checks * 3)) with 0%nat by lia.
Qed.

(** X16.  Two settings switch the logging off without any error.  With
    [STABILITY_CHECKS] at zero or below the stability gate answers [False]
    without looking at the file, so an admitted creation notification only
    enters the gate and writes nothing.  With [MAX_HASH_RETRIES] at zero or
    below the hash-and-log sequence never invokes the hasher and writes
    nothing. *)
Theorem non_positive_settings_disable_logging (event : FileSystemEvent) (k : string)
    (w : world) :
  let p := src_path event in
  (FILE_STABILITY_CHECKS cfg <= 0 ->
   is_directory event = false -> locked_in (self w) p = false ->
   exists w',
     on_created E cfg event w = (Val tt, w') /\
     calls w' = calls w ++ [CallStability p] /\ manifest w' = manifest w /\
     tick w' = tick w) /\
  (MAX_HASH_RETRIES cfg <= 0 ->
   exists w',
     _process_file_safe E cfg p k w = (Val tt, w') /\
     calls w' = calls w ++ [CallProcess p k] /\ manifest w' = manifest w).
Proof.
  cbv zeta. set (p := src_path event). split.
  - intros Hc Hdir Hlock.
    destruct (on_created_state E cfg event w Hdir Hlock) as (wc & Hpass & Hrun).
    fold p in Hpass, Hrun. unfold created_pass in Hpass.
    rewrite (run_bind_val _ _ _ _ _
               (wait_for_file_stability_no_checks p _ _ _ Hc)) in Hpass.
    cbn [negb] in Hpass. injection Hpass as <-.
    eexists. split; [exact Hrun |]. by repeat split.
  - intros Hmax. unfold _process_file_safe.
    rewrite (run_bind_val _ _ _ _ _ (run_record_call _ w)).
    unfold catch. rewrite (run_bind_val _ _ _ _ _ (run_os_path_exists E p _)).
    destruct (present_at E _ p); cbn [negb].
    + unfold calculate_file_hash_with_retry.
      replace (Z.to_nat (MAX_HASH_RETRIES cfg)) with 0%nat by lia.
      cbn [retry_loop]. eexists. split; [reflexivity |]. by split.
    + eexists. split; [reflexivity |]. by split.
Qed.
End Isolation.

Lemma handlers_leave_other_flags_witness :
  _processing_lock
    (self (snd (on_created rapid_env default_config rapid_event locked_world)))
    !! "/monitored/other.txt"
    = _processing_lock (self locked_world) !! "/monitored/other.txt" /\
  _last_modified (self (snd (on_created rapid_env default_config rapid_event locked_world)))
    = _last_modified (self locked_world) /\
  _processing_lock
    (self (snd (on_modified rapid_env default_config rapid_event locked_world)))
    !! "/monitored/other.txt"
    = _processing_lock (self locked_world) !! "/monitored/other.txt".
Proof.
  apply (handlers_leave_other_flags rapid_env default_config rapid_event locked_world
           "/monitored/other.txt").
  discriminate.
Defined.

Lemma on_modified_other_stamps_witness :
  _last_modified
    (self (snd (on_modified rapid_env default_config rapid_event other_stamp_world)))
    !! "/monitored/other.txt" = Some 1699999998%Q.
Proof.
  destruct (on_modified_other_stamps rapid_env default_config rapid_event other_stamp_world
              "/monitored/other.txt" 1699999998%Q) as [_ Hkeep]; [discriminate |].
  destruct (Hkeep eq_refl) as [Hsame | (_ & Hold & _)]; [exact Hsame |].
  exfalso. vm_compute in Hold. by apply Hold.
Defined.

Lemma non_positive_settings_disable_logging_witness :
  (exists w',
     on_created rapid_env no_checks_config rapid_event new_world = (Val tt, w') /\
     calls w' = calls new_world ++ [CallStability "/monitored/rapid.txt"] /\
     manifest w' = manifest new_world /\ tick w' = tick new_world) /\
  (exists w',
     _process_file_safe rapid_env no_retries_config "/monitored/rapid.txt" "CREATED" new_world
       = (Val tt, w') /\
     calls w' = calls new_world ++ [CallProcess "/monitored/rapid.txt" "CREATED"] /\
     manifest w' = manifest new_world).
Proof.
  split.
  - apply (non_positive_settings_disable_logging rapid_env no_checks_config rapid_event
             "CREATED" new_world); [simpl; lia | reflexivity | reflexivity].
  - apply (non_positive_settings_disable_logging rapid_env no_retries_config rapid_event
             "CREATED" new_world). simpl. lia.
Defined.

(** ** Further properties of the verification *)

Section VerifyMore.
Variable E : env.
Variable cfg : config.

Lemma lower_ascii_idempotent c : lower_ascii (lower_ascii c) = lower_ascii c.
Proof. by destruct c as [[] [] [] [] [] [] [] []]. Qed.

Lemma lower_idempotent s : lower (lower s) = lower s.
Proof.
  induction s as [| c s IH]; [reflexivity |]. simpl. by rewrite lower_ascii_idempotent, IH.
Qed.

Lemma lower_ascii_hex c : is_lower_hex c = true -> lower_ascii c = c.
Proof.
  destruct c as [[] [] [] [] [] [] [] []]; vm_compute; intros H;
    first [reflexivity | discriminate H].
Qed.

Lemma lower_digest d : is_digest d -> lower d = d.
Proof.
  intros [_ Hhex]. induction d as [| c d IH]; [reflexivity |].
  simpl in Hhex. apply andb_true_iff in Hhex as [Hc Hd].
  simpl. by rewrite (lower_ascii_hex c Hc), (IH Hd).
Qed.

(** X17.  The case of the expected digest does not matter: verifying
    against a digest and against its lower-cased form is the same
    computation, with the same answer and the same effects. *)
Theorem verify_file_integrity_ignores_case (p expected_hash : string) (w : world) :
  verify_file_integrity E cfg p (lower expected_hash) w =
  verify_file_integrity E cfg p expected_hash w.
Proof.
  unfold verify_file_integrity.
  destruct (calculate_file_hash_total E p "sha256" (HASH_CHUNK_SIZE cfg) w)
    as (o & w' & Hr).
  rewrite !(run_bind_val _ _ _ _ _ Hr). destruct o; [| reflexivity].
  by rewrite lower_idempotent.
Qed.

(** X18.  For a readable file that stays put, with nothing failing and a
    chunk size [f.read] can serve (at least one byte, a buffer that can be
    allocated), [verify_file_integrity] answers [True] exactly when the
    expected digest, lower-cased, is the SHA-256 of the content. *)
Theorem verify_file_integrity_steady (p expected_hash : string) (content : list byte)
    (w : world) :
  chunk_fits E (HASH_CHUNK_SIZE cfg) ->
  steady_file E (tick w) p content ->
  exists b,
    fst (verify_file_integrity E cfg p expected_hash w) = Val b /\
    (b = true <-> lower expected_hash = sha256_hex content).
Proof.
  intros Hc Hs.
  destruct (calculate_file_hash_steady E cfg p content w Hc Hs) as (w' & Hr & _).
  unfold verify_file_integrity. rewrite (run_bind_val _ _ _ _ _ Hr). cbn [ret fst].
  eexists. split; [reflexivity |].
  rewrite (lower_digest (sha256_hex content)) by apply hexdigest_is_digest.
  rewrite String.eqb_eq. split; congruence.
Qed.
End VerifyMore.

Lemma verify_file_integrity_steady_witness :
  exists b,
    fst (verify_file_integrity abc_env default_config "/monitored/abc.txt"
           "BA7816BF8F01CFEA414140DE5DAE2223B00361A396177A9CB410FF61F20015AD" new_world)
      = Val b /\
    (b = true <->
     lower "BA7816BF8F01CFEA414140DE5DAE2223B00361A396177A9CB410FF61F20015AD"
       = sha256_hex (list_byte_of_string "abc")).
Proof.
  apply (verify_file_integrity_steady abc_env default_config "/monitored/abc.txt"
           "BA7816BF8F01CFEA414140DE5DAE2223B00361A396177A9CB410FF61F20015AD"
           (list_byte_of_string "abc") new_world).
  - by vm_compute.
  - intros t _. split; [reflexivity | apply lookup_singleton_eq].
Defined.

(** ** Budgets *)

Section Budgets.
Variable E : env.
Variable cfg : config.

Lemma stability_loop_budget n p checks interval previous_size stable_count w :
  (tick (snd (stability_loop E n p checks interval previous_size stable_count w))
     <= tick w + 2 * n)%nat.
Proof.
  revert previous_size stable_count w.
  induction n as [| n IH]; intros prev count w; [simpl; lia |].
  assert (Hnext : forall prev' count',
    (tick (snd (stability_loop E n p checks interval prev' count' (advance (advance w))))
       <= tick w + 2 * S n)%nat).
  { intros prev' count'. specialize (IH prev' count' (advance (advance w))).
    simpl in IH. lia. }
  cbn [stability_loop].
  rewrite (run_bind_val _ _ _ _ _ (run_os_path_exists E p w)).
  destruct (present_at E (tick w) p); cbn [negb]; [| simpl; lia].
  pose proof (run_getsize_caught E p (advance w)) as Hg.
  destruct (polled_size E (tick (advance w)) p) as [[size |] | e].
  - rewrite (run_bind_val _ _ _ _ _ Hg).
    unfold time_sleep.
    destruct ((size =? prev) && (0 <? size)).
    + destruct (checks <=? count + 1); [simpl; lia |].
      destruct (decide (interval < 0)%Q);
        [| destruct (decide (interval < sleep_limit)%Q)];
        [simpl; lia | apply Hnext | simpl; lia].
    + destruct (decide (interval < 0)%Q);
        [| destruct (decide (interval < sleep_limit)%Q)];
        [simpl; lia | apply Hnext | simpl; lia].
  - rewrite (run_bind_val _ _ _ _ _ Hg).
    unfold time_sleep. destruct (decide (interval < 0)%Q);
        [| destruct (decide (interval < sleep_limit)%Q)];
        [simpl; lia | apply Hnext | simpl; lia].
  - rewrite (run_bind_raise _ _ _ _ _ Hg). simpl. lia.
Qed.

(** X19.  Whatever the file system does, the stability gate returns, without
    raising, after at most [3 * checks] polls, that is at most
    [2 * 3 * checks] system calls; with [checks] at zero or below it makes
    none. *)
Theorem wait_for_file_stability_budget (p : string) (checks : Z) (interval : Q) (w : world) :
  exists stable w',
    wait_for_file_stability E p checks interval w = (Val stable, w') /\
    (tick w <= tick w' <= tick w + 2 * Z.to_nat (3 * checks))%nat.
Proof.
  destruct (wait_for_file_stability_total E p checks interval w) as (stable & w' & Hr).
  exists stable, w'. split; [exact Hr |].
  assert (Hlater : keeps (fun a b => (tick a <= tick b)%nat)
                     (wait_for_file_stability E p checks interval)).
  { assert (Hpre : PreOrder (fun a b : world => (tick a <= tick b)%nat))
      by (split; [intros a | intros a b c]; lia).
    apply (keeps_wait_for_file_stability _ (fun _ => True)); [by intros a; simpl; lia | | done].
    intros c _ a. simpl. lia. }
  specialize (Hlater w). rewrite Hr in Hlater. split; [exact Hlater |].
  revert Hr. unfold wait_for_file_stability.
  rewrite (run_bind_val _ _ _ _ _ (run_record_call _ w)).
  pose proof (stability_loop_budget (Z.to_nat (checks * 3)) p checks interval (-1) 0
                (logged (CallStability p) w)) as Hb.
  unfold catch.
  destruct (stability_loop E (Z.to_nat (checks * 3)) p checks interval (-1) 0
              (logged (CallStability p) w)) as [[b | e] w1];
    intros [= _ <-]; simpl in Hb; lia.
Qed.

(** X20.  However many modification notifications for one path arrive while
    the clock moves by less than a second, at most one processing pass is
    started and the hash-and-log sequence runs at most once. *)
Theorem burst_starts_at_most_one_pass (n : nat) (event : FileSystemEvent) (w : world) :
  is_directory event = false -> burst E ->
  exists w',
    notify n (on_modified E cfg event) w = (Val tt, w') /\
    (count_stability (calls w') <= count_stability (calls w) + 1)%nat /\
    (count_process (calls w') <= count_process (calls w) + 1)%nat.
Proof. apply notify_one_pass. Qed.
End Budgets.

Lemma burst_starts_at_most_one_pass_witness :
  exists w',
    notify 40 (on_modified rapid_env default_config rapid_event) new_world = (Val tt, w') /\
    (count_stability (calls w') <= count_stability (calls new_world) + 1)%nat /\
    (count_process (calls w') <= count_process (calls new_world) + 1)%nat.
Proof.
  apply (burst_starts_at_most_one_pass rapid_env default_config 40 rapid_event new_world).
  - reflexivity.
  - intros t t'. reflexivity.
Defined.
